(** * Storage layer of kore-node: the LevelDB and SQLite collections

    Shallow embedding of [src/src/database/leveldb.rs] and
    [src/src/database/sqlite.rs].

    Rust strings are sequences of Unicode scalar values.  UTF-8 byte order
    coincides with code-point order, so a key is modelled as the list of its
    code points ([list N]) compared lexicographically: this is both LevelDB's
    default bytewise comparator and SQLite's BINARY collation on TEXT. *)

From Stdlib Require Import String Ascii List Arith NArith ZArith Bool Lia Sorting.Sorted.
Import ListNotations.

(* ------------------------------------------------------------------ *)
(** ** Keys, values and the string functions the backends use *)

Definition key := list N.
Definition bytes := list Byte.byte.

(** [char::MAX] = U+10FFFF. *)
Definition char_MAX : N := 1114111.

(** Literal keys, from ASCII string literals. *)
Fixpoint str (s : string) : key :=
  match s with
  | EmptyString => []
  | String a s' => N_of_ascii a :: str s'
  end.

(** Lexicographic comparison of keys (bytewise on the UTF-8 encoding). *)
Fixpoint key_compare (a b : key) : comparison :=
  match a, b with
  | [], [] => Eq
  | [], _ :: _ => Lt
  | _ :: _, [] => Gt
  | x :: a', y :: b' =>
      match N.compare x y with
      | Eq => key_compare a' b'
      | c => c
      end
  end.

Definition key_ltb (a b : key) : bool :=
  match key_compare a b with Lt => true | _ => false end.

Definition key_eqb (a b : key) : bool :=
  match key_compare a b with Eq => true | _ => false end.

(** [s.starts_with(pat)] *)
Fixpoint starts_with (s pat : key) {struct pat} : bool :=
  match pat, s with
  | [], _ => true
  | _ :: _, [] => false
  | c :: pat', d :: s' => N.eqb c d && starts_with s' pat'
  end.

(** [s.replace(from, to)]: the non-overlapping occurrences of [from] found
    left to right are replaced; [skip] counts the characters of the current
    match still to be dropped.  An empty pattern matches at every character
    boundary. *)
Fixpoint replace_go (from to : key) (skip : nat) (s : key) : key :=
  match s with
  | [] => []
  | c :: s' =>
      match skip with
      | S n => replace_go from to n s'
      | O =>
          if starts_with s from
          then to ++ replace_go from to (pred (length from)) s'
          else c :: replace_go from to O s'
      end
  end.

Definition replace (s from to : key) : key :=
  match from with
  | [] => to ++ concat (map (fun c => c :: to) s)
  | _ :: _ => replace_go from to O s
  end.

(** [s.rfind(c)]: index of the last occurrence of the character [c]
    (a character index; slicing by it is slicing at the matching byte
    offset). *)
Fixpoint rfind_go (s : key) (c : N) (i : nat) (acc : option nat) : option nat :=
  match s with
  | [] => acc
  | d :: s' => rfind_go s' c (S i) (if N.eqb d c then Some i else acc)
  end.

Definition rfind (s : key) (c : N) : option nat := rfind_go s c O None.

(** Errors of the storage contract ([kore_base::DbError]). *)
Inductive DbError :=
| EntryNotFound
| SerializeError
| CustomError (msg : string).

Inductive result (A : Type) :=
| Ok (a : A)
| Err (e : DbError).
Arguments Ok {A} a.
Arguments Err {A} e.

(* ------------------------------------------------------------------ *)
(** ** Ordered key-value tables

    Both LevelDB's keyspace and an SQLite table with [id TEXT PRIMARY KEY]
    are ordered maps from keys to values: a list of entries sorted by key. *)

Definition Table := list (key * bytes).

Fixpoint tbl_get (k : key) (t : Table) : option bytes :=
  match t with
  | [] => None
  | (k', v') :: t' => if key_eqb k k' then Some v' else tbl_get k t'
  end.

(** Insert-or-replace at the key's place in the order. *)
Fixpoint tbl_put (k : key) (v : bytes) (t : Table) : Table :=
  match t with
  | [] => [(k, v)]
  | (k', v') :: t' =>
      match key_compare k k' with
      | Lt => (k, v) :: t
      | Eq => (k, v) :: t'
      | Gt => (k', v') :: tbl_put k v t'
      end
  end.

Fixpoint tbl_del (k : key) (t : Table) : Table :=
  match t with
  | [] => []
  | (k', v') :: t' => if key_eqb k k' then t' else (k', v') :: tbl_del k t'
  end.

Definition entry_lt (e1 e2 : key * bytes) : Prop :=
  key_compare (fst e1) (fst e2) = Lt.

Definition tbl_sorted (t : Table) : Prop := StronglySorted entry_lt t.

(* ------------------------------------------------------------------ *)
(** ** Backend A: LevelDB ([leveldb.rs]) *)

Module Leveldb.

(** The one physical store shared (through an [Arc]) by every collection of
    a manager: its sorted entries; [Some msg] when the store reports an I/O
    or corruption failure with message [msg], on which every [get], [put]
    and [delete] fails (a store that fails writes while it still serves
    reads is not represented); and the keys whose entries a cursor cannot
    read while the store fails (those in blocks whose read fails). *)
Record Database := {
  entries : Table;
  fault : option string;
  unreadable : key -> bool
}.

(** [struct ReadOptions] and [leveldb::options::WriteOptions]; they tune
    caching, checksums and fsync only, not the observable results. *)
Record ReadOptions := { fill_cache : bool; verify_checksums : bool }.
Record WriteOptions := { sync : bool }.

(** [LeveldbManager { db }]: the manager holds the shared database, which is
    the state the operations below thread. *)
Inductive LeveldbManager := mkLeveldbManager.

Record LeveldbCollection := {
  read_options : option ReadOptions;
  write_options : option WriteOptions
}.

(** [create_collection(&self, _identifier)]: the identifier is not used. *)
Definition create_collection (m : LeveldbManager) (_identifier : key)
  : LeveldbCollection :=
  {| read_options := None; write_options := None |}.

(** [generate_key]: [StringKey(key.to_string())]. *)
Definition generate_key (c : LeveldbCollection) (k : key) : key := k.

Definition get_write_options (c : LeveldbCollection) : WriteOptions :=
  match write_options c with
  | Some o => o
  | None => {| sync := true |}
  end.

(** [DatabaseCollection::get]: both [Err(_)] and [Ok(None)] become
    [EntryNotFound]. *)
Definition get (c : LeveldbCollection) (k : key) (db : Database) : result bytes :=
  let k := generate_key c k in
  match fault db with
  | Some _ => Err EntryNotFound
  | None =>
      match tbl_get k (entries db) with
      | Some v => Ok v
      | None => Err EntryNotFound
      end
  end.

Definition put (c : LeveldbCollection) (k : key) (data : bytes) (db : Database)
  : result unit * Database :=
  let k := generate_key c k in
  match fault db with
  | Some e => (Err (CustomError ("Error putting data: " ++ e)), db)
  | None =>
      (Ok tt, {| entries := tbl_put k data (entries db); fault := None;
                 unreadable := unreadable db |})
  end.

Definition del (c : LeveldbCollection) (k : key) (db : Database)
  : result unit * Database :=
  let k := generate_key c k in
  match fault db with
  | Some e => (Err (CustomError ("Error deletting data: " ++ e)), db)
  | None =>
      (Ok tt, {| entries := tbl_del k (entries db); fault := None;
                 unreadable := unreadable db |})
  end.

(** *** The cursor of the [leveldb] crate

    A native cursor is a position in the sorted entries ([None]: not
    valid).  Over a store that reports a failure a cursor skips the entries
    it cannot read and still sees the others (the crate never checks the
    iterator's status). *)
Definition view (db : Database) : Table :=
  match fault db with
  | Some _ => filter (fun e => negb (unreadable db (fst e))) (entries db)
  | None => entries db
  end.

Record Cursor := { pos : option nat; start : bool }.

Definition mk_pos (es : Table) (i : nat) : option nat :=
  if Nat.ltb i (length es) then Some i else None.

(** Index of the first entry whose key is [>= k]. *)
Fixpoint seek_index (es : Table) (k : key) : nat :=
  match es with
  | [] => O
  | (k', _) :: es' => if key_ltb k' k then S (seek_index es' k) else O
  end.

(** [Iterator::new]: [leveldb_iter_seek_to_first], [start = true]. *)
Definition iter_new (es : Table) : Cursor := {| pos := mk_pos es O; start := true |}.

(** [seek(&key)]: [leveldb_iter_seek], first entry [>= key]. *)
Definition seek (es : Table) (k : key) (c : Cursor) : Cursor :=
  {| pos := mk_pos es (seek_index es k); start := start c |}.

(** [reverse()]: an iterator not yet started is moved to the last entry. *)
Definition reverse (es : Table) (c : Cursor) : Cursor :=
  if start c
  then {| pos := match length es with O => None | S n => Some n end;
          start := true |}
  else c.

Definition valid (c : Cursor) : bool :=
  match pos c with Some _ => true | None => false end.

Definition next_pos (es : Table) (p : option nat) : option nat :=
  match p with Some i => mk_pos es (S i) | None => None end.

Definition prev_pos (p : option nat) : option nat :=
  match p with Some (S i) => Some i | _ => None end.

(** [advance()]: the first call only marks the iterator started (there is
    no [from] key); later calls step the native cursor, forward
    ([leveldb_iter_next]) or backward ([leveldb_iter_prev]). *)
Definition advance (step : option nat -> option nat) (c : Cursor) : Cursor * bool :=
  let c' := if start c then {| pos := pos c; start := false |}
            else {| pos := step (pos c); start := false |} in
  (c', valid c').

Definition advance_fwd (es : Table) := advance (next_pos es).
Definition advance_rev := advance prev_pos.

Definition current (es : Table) (c : Cursor) : option (key * bytes) :=
  match pos c with Some i => nth_error es i | None => None end.

(** [Iterator::next] / [RevIterator::next] of the crate. *)
Definition raw_next (adv : Cursor -> Cursor * bool) (es : Table) (c : Cursor)
  : Cursor * option (key * bytes) :=
  let (c', ok) := adv c in
  if ok then (c', current es c') else (c', None).

(** [LeveldbIterator::next] and [RevLeveldbIterator::next]: stop at the first
    key without the prefix, and remove the prefix with [replace]. *)
Definition prefix_next (adv : Cursor -> Cursor * bool) (es : Table)
    (table_name : key) (c : Cursor) : Cursor * option (key * bytes) :=
  let (c', item) := raw_next adv es c in
  match item with
  | None => (c', None)
  | Some (value, data) =>
      if negb (starts_with value table_name) then (c', None)
      else (c', Some (replace value table_name [], data))
  end.

(** The items a consumer pulls until the first [None]; [fuel] bounds the
    number of pulls. *)
Fixpoint drain {St A : Type} (fuel : nat) (step : St -> St * option A) (s : St)
  : list A :=
  match fuel with
  | O => []
  | S f =>
      match step s with
      | (s', Some x) => x :: drain f step s'
      | (_, None) => []
      end
  end.

Definition sentinel (prefix : key) : key := prefix ++ [char_MAX; char_MAX].

(** [DatabaseCollection::iter]. *)
Definition iter (c : LeveldbCollection) (rev : bool) (prefix : key) (db : Database)
  : list (key * bytes) :=
  let es := view db in
  let fuel := S (length es) in
  if rev then
    let it := seek es (sentinel prefix) (reverse es (iter_new es)) in
    let peek := snd (raw_next advance_rev es it) in
    let it :=
      match peek with
      | Some _ =>
          let it := seek es (sentinel prefix) (reverse es (iter_new es)) in
          fst (advance_rev it)
      | None => reverse es (iter_new es)
      end in
    drain fuel (prefix_next advance_rev es prefix) it
  else
    drain fuel (prefix_next (advance_fwd es) es prefix) (seek es prefix (iter_new es)).

End Leveldb.

(* ------------------------------------------------------------------ *)
(** ** Backend B: SQLite ([sqlite.rs]) *)

Module Sqlite.

(** The databases a connection reaches: a database file (by its path), the
    private database of one connection (for [":memory:"], for [""] (a
    private temporary file) and for a private in-memory URI), a shared-cache
    in-memory database (by its URI name), and the [temp] database that every
    connection has for itself. *)
Inductive Target :=
| FileDb (path : key)
| MemDb (id : nat)
| SharedMemDb (name : key)
| TempDb (id : nat).

Definition target_eqb (a b : Target) : bool :=
  match a, b with
  | FileDb p, FileDb q => key_eqb p q
  | MemDb i, MemDb j => Nat.eqb i j
  | SharedMemDb p, SharedMemDb q => key_eqb p q
  | TempDb i, TempDb j => Nat.eqb i j
  | _, _ => false
  end.

(** A database: its tables by (case-folded) name, and [faulty] when every
    statement on it fails (I/O error, corruption).  Failures of writes
    alone (a full disk, a lock held by another process) are not
    represented: the theorems below that involve [faulty] are stated per
    call. *)
Record Db := { tables : list (key * Table); faulty : bool }.

Definition empty_db : Db := {| tables := []; faulty := false |}.

(** How SQLite opens a [file:] URI (rusqlite's [OpenFlags::default()]
    includes [SQLITE_OPEN_URI]): on the file at a path, on the shared-cache
    in-memory database of a name ([mode=memory&cache=shared]), or on a
    database private to the connection ([file::memory:]). *)
Inductive UriDb :=
| UriFile (path : key)
| UriSharedMem (name : key)
| UriPrivate.

(** The schema a table name refers to: the connection's main database or
    its [temp] database. *)
Inductive Schema := Main | Temp.

(** Every database the process reaches (connections are never closed: no
    collection is dropped), and two readings of SQLite that the model takes
    as given instead of re-implementing its URI and SQL parsers:
    - [uri_db]: how a path starting with [file:] opens ([None]: the open
      fails);
    - [name_ref]: for a collection name that is not a plain identifier (see
      [plain_name]; e.g. [[t]], ["t"], [main.t], [temp.t]), the table it
      denotes when pasted into the four statements, with the ASCII case of
      the table name folded ([None]: the statements do not read it as a
      table name; a name whose text changes the statements, such as
      [t AS SELECT 1 --], is taken to fail at the [CREATE TABLE]).
    Neither reading changes as the program runs. *)
Record World := {
  dbs : list (Target * Db);
  uri_db : key -> option UriDb;
  name_ref : key -> option (Schema * key)
}.

Fixpoint assoc_db (t : Target) (l : list (Target * Db)) : option Db :=
  match l with
  | [] => None
  | (t', d) :: l' => if target_eqb t t' then Some d else assoc_db t l'
  end.

Fixpoint set_assoc_db (t : Target) (d : Db) (l : list (Target * Db))
  : list (Target * Db) :=
  match l with
  | [] => [(t, d)]
  | (t', d') :: l' =>
      if target_eqb t t' then (t', d) :: l' else (t', d') :: set_assoc_db t d l'
  end.

Definition db_of (t : Target) (w : World) : option Db := assoc_db t (dbs w).

Definition set_db (t : Target) (d : Db) (w : World) : World :=
  {| dbs := set_assoc_db t d (dbs w); uri_db := uri_db w; name_ref := name_ref w |}.

(** The number that tells apart the private databases of connections. *)
Definition target_id (t : Target) : nat :=
  match t with
  | MemDb i | TempDb i => i
  | _ => O
  end.

Definition max_id (l : list (Target * Db)) : nat :=
  fold_right (fun e acc => Nat.max (target_id (fst e)) acc) O l.

(** A connection number that no database of the world uses yet. *)
Definition fresh_id (w : World) : nat := S (max_id (dbs w)).

(** A connection: its main database, and the number of its own [temp]
    database. *)
Record Conn := { main_db : Target; conn_id : nat }.

(** SQL identifiers are matched ignoring ASCII case. *)
Definition fold_char (c : N) : N :=
  if (65 <=? c)%N && (c <=? 90)%N then (c + 32)%N else c.

Definition ident_fold (name : key) : key := map fold_char name.

(** The SQLite keywords a bare table name may not be: those the parser
    does not fall back to an identifier ([first], [key], [temp] and the like
    are names of tables), together with the join words, the
    context-dependent [filter], [over], [window] and [within], and [true]
    and [false].  A name among these is left to SQLite's reading of it. *)
Definition sql_keywords : list string :=
  ["add"; "all"; "alter"; "and"; "as"; "autoincrement"; "between"; "case";
   "check"; "collate"; "commit"; "constraint"; "create"; "cross"; "default";
   "deferrable"; "delete"; "distinct"; "drop"; "else"; "escape"; "except";
   "exists"; "filter"; "foreign"; "from"; "full"; "group"; "having"; "in";
   "index"; "indexed"; "inner"; "insert"; "intersect"; "into"; "is";
   "isnull"; "join"; "left"; "limit"; "natural"; "not"; "nothing"; "notnull";
   "null"; "on"; "or"; "order"; "outer"; "over"; "primary"; "references";
   "returning"; "right"; "rollback"; "select"; "set"; "table"; "temporary";
   "then"; "to"; "transaction"; "union"; "unique"; "update"; "using";
   "values"; "when"; "where"; "window"; "within"; "true"; "false"]%string.

Definition is_keyword (name : key) : bool :=
  existsb (fun kw => key_eqb (ident_fold name) (str kw)) sql_keywords.

Definition plain_start (c : N) : bool :=
  ((65 <=? c)%N && (c <=? 90)%N) || ((97 <=? c)%N && (c <=? 122)%N) || (c =? 95)%N.

Definition plain_char (c : N) : bool := plain_start c || ((48 <=? c)%N && (c <=? 57)%N).

(** A plain name: an ASCII letter or [_], then letters, digits and [_], and
    not a keyword.  SQLite reads it as the table of that name in the main
    database (an unqualified name is looked up in [temp] first, but a
    connection's [temp] database only ever holds the table of its own
    collection). *)
Definition plain_name (name : key) : bool :=
  match name with
  | [] => false
  | c :: cs => plain_start c && forallb plain_char cs && negb (is_keyword name)
  end.

(** Names starting with [sqlite_] are reserved: [CREATE TABLE] refuses them. *)
Definition reserved_name (name : key) : bool := starts_with (ident_fold name) (str "sqlite_").

(** The table a collection name denotes in the four statements. *)
Definition table_ref (nr : key -> option (Schema * key)) (name : key)
  : option (Schema * key) :=
  if plain_name name then
    if reserved_name name then None else Some (Main, ident_fold name)
  else nr name.

(** The database and table name a statement of connection [cn] on table
    [name] reaches. *)
Definition resolve (cn : Conn) (name : key) (w : World) : option (Target * key) :=
  match table_ref (name_ref w) name with
  | Some (Main, x) => Some (main_db cn, x)
  | Some (Temp, x) => Some (TempDb (conn_id cn), x)
  | None => None
  end.

Fixpoint assoc_table (name : key) (l : list (key * Table)) : option Table :=
  match l with
  | [] => None
  | (n, t) :: l' => if key_eqb name n then Some t else assoc_table name l'
  end.

Fixpoint set_assoc_table (name : key) (t : Table) (l : list (key * Table))
  : list (key * Table) :=
  match l with
  | [] => [(name, t)]
  | (n, t') :: l' =>
      if key_eqb name n then (n, t) :: l' else (n, t') :: set_assoc_table name t l'
  end.

(** [SqliteManager { path }]. *)
Record SqliteManager := { path : key }.

Definition new (p : key) : SqliteManager := {| path := p |}.

(** [DatabaseManager::default]: [Self::new(":memory:")]. *)
Definition default : SqliteManager := new (str ":memory:").

(** What [Connection::open_with_flags] opens for a path: rusqlite refuses a
    path holding a NUL character; [":memory:"] and [""] give a database
    private to the connection; a path starting with [file:] is a URI; any
    other path names a database file. *)
Inductive OpenKind :=
| OpenFile (p : key)
| OpenShared (name : key)
| OpenPrivate
| OpenFail.

Definition open_kind (p : key) (w : World) : OpenKind :=
  if existsb (N.eqb 0) p then OpenFail
  else if key_eqb p (str ":memory:") || key_eqb p [] then OpenPrivate
  else if starts_with p (str "file:") then
    match uri_db w p with
    | Some (UriFile q) => OpenFile q
    | Some (UriSharedMem nm) => OpenShared nm
    | Some UriPrivate => OpenPrivate
    | None => OpenFail
    end
  else OpenFile p.

(** [open(path)]: [Connection::open_with_flags] then the two PRAGMAs; [None]
    is the [NodeError] the caller turns into a panic.  The new connection
    gets a fresh number and its own empty [temp] database; a file or a
    shared in-memory database is created empty when it does not exist. *)
Definition open (p : key) (w : World) : option (Conn * World) :=
  let id := fresh_id w in
  let w1 := set_db (TempDb id) empty_db w in
  let on_shared (t : Target) :=
    match db_of t w with
    | Some d => if faulty d then None else Some ({| main_db := t; conn_id := id |}, w1)
    | None => Some ({| main_db := t; conn_id := id |}, set_db t empty_db w1)
    end in
  match open_kind p w with
  | OpenFail => None
  | OpenPrivate =>
      Some ({| main_db := MemDb id; conn_id := id |}, set_db (MemDb id) empty_db w1)
  | OpenFile q => on_shared (FileDb q)
  | OpenShared nm => on_shared (SharedMemDb nm)
  end.

(** [CREATE TABLE IF NOT EXISTS {identifier} (id TEXT PRIMARY KEY, value BLOB NOT NULL)]. *)
Definition create_table (cn : Conn) (identifier : key) (w : World) : option World :=
  match resolve cn identifier w with
  | None => None
  | Some (t, name) =>
      match db_of t w with
      | None => None
      | Some d =>
          if faulty d then None else
          match assoc_table name (tables d) with
          | Some _ => Some w
          | None =>
              Some (set_db t {| tables := set_assoc_table name [] (tables d);
                                faulty := false |} w)
          end
      end
  end.

(** [SqliteCollection { conn: Arc<Mutex<Connection>>, table }]; [conn_poisoned]
    is the state of the mutex. *)
Record SqliteCollection := {
  conn : Conn;
  conn_poisoned : bool;
  table : key
}.

(** [create_collection]: a new connection per call; [None] is a panic
    ([expect]). *)
Definition create_collection (m : SqliteManager) (identifier : key) (w : World)
  : option (SqliteCollection * World) :=
  match open (path m) w with
  | None => None
  | Some (cn, w1) =>
      match create_table cn identifier w1 with
      | None => None
      | Some w2 =>
          Some ({| conn := cn; conn_poisoned := false; table := identifier |}, w2)
      end
  end.

(** The rows of the collection's table, or [None] when a statement on it
    fails. *)
Definition query_table (c : SqliteCollection) (w : World) : option Table :=
  match resolve (conn c) (table c) w with
  | None => None
  | Some (t, name) =>
      match db_of t w with
      | None => None
      | Some d => if faulty d then None else assoc_table name (tables d)
      end
  end.

Definition store_table (c : SqliteCollection) (tb : Table) (w : World) : World :=
  match resolve (conn c) (table c) w with
  | None => w
  | Some (t, name) =>
      match db_of t w with
      | None => w
      | Some d =>
          set_db t {| tables := set_assoc_table name tb (tables d);
                      faulty := faulty d |} w
      end
  end.

(** [SELECT value FROM {table} WHERE id = ?1]; every failure of
    [query_row] becomes [EntryNotFound]. *)
Definition get (c : SqliteCollection) (k : key) (w : World) : result bytes :=
  if conn_poisoned c then Err (CustomError "open connection") else
  match query_table c w with
  | None => Err EntryNotFound
  | Some t =>
      match tbl_get k t with
      | Some v => Ok v
      | None => Err EntryNotFound
      end
  end.

(** [INSERT OR REPLACE INTO {table} (id, value) VALUES (?1, ?2)]. *)
Definition put (c : SqliteCollection) (k : key) (data : bytes) (w : World)
  : result unit * World :=
  if conn_poisoned c then (Err (CustomError "open connection"), w) else
  match query_table c w with
  | None => (Err (CustomError "insert error"), w)
  | Some t => (Ok tt, store_table c (tbl_put k data t) w)
  end.

(** [DELETE FROM {table} WHERE id = ?1]. *)
Definition del (c : SqliteCollection) (k : key) (w : World) : result unit * World :=
  if conn_poisoned c then (Err (CustomError "open connection"), w) else
  match query_table c w with
  | None => (Err (CustomError "delete error"), w)
  | Some t => (Ok tt, store_table c (tbl_del k t) w)
  end.

Inductive sql_result (A : Type) := SqlOk (a : A) | SqlErr.
Arguments SqlOk {A} a.
Arguments SqlErr {A}.

(** [key.rfind(char::MAX).unwrap_or(0)]. *)
Definition position_to_cut (k : key) : nat :=
  match rfind k char_MAX with Some i => i | None => O end.

(** The [while let Some(row) = rows.next()?] loop of [make_iter]: rows
    without the prefix are skipped, the others pushed as
    [(key[position_to_cut..key.len()], value)]. *)
Fixpoint collect_rows (prefix : key) (rows : Table) : list (key * bytes) :=
  match rows with
  | [] => []
  | (k, v) :: rows' =>
      if negb (starts_with k prefix) then collect_rows prefix rows'
      else (skipn (position_to_cut k) k, v) :: collect_rows prefix rows'
  end.

(** [make_iter]: [SELECT id, value FROM {table} ORDER BY id ASC|DESC]; the
    outer [None] is the panic of [lock().expect(..)]. *)
Definition make_iter (c : SqliteCollection) (reverse : bool) (prefix : key) (w : World)
  : option (sql_result (list (key * bytes))) :=
  if conn_poisoned c then None else
  match query_table c w with
  | None => Some SqlErr
  | Some t => Some (SqlOk (collect_rows prefix (if reverse then rev t else t)))
  end.

(** [DatabaseCollection::iter]: an [Err] becomes [std::iter::empty()]. *)
Definition iter (c : SqliteCollection) (reverse : bool) (prefix : key) (w : World)
  : option (list (key * bytes)) :=
  match make_iter c reverse prefix w with
  | None => None
  | Some (SqlOk l) => Some l
  | Some SqlErr => Some []
  end.

(** The worlds a program reaches from [w] by creating collections and
    writing through them (reads do not change the world). *)
Inductive reach : World -> World -> Prop :=
| reach_refl (w : World) : reach w w
| reach_put (c : SqliteCollection) (k : key) (v : bytes) (w w' : World) :
    reach (snd (put c k v w)) w' -> reach w w'
| reach_del (c : SqliteCollection) (k : key) (w w' : World) :
    reach (snd (del c k w)) w' -> reach w w'
| reach_create (m : SqliteManager) (n : key) (w : World) (c : SqliteCollection)
    (w1 w' : World) :
    create_collection m n w = Some (c, w1) -> reach w1 w' -> reach w w'.

End Sqlite.

(* ------------------------------------------------------------------ *)
(** ** Operation sequences and list forms of the iterations *)

(** A yielded entry with every occurrence of the prefix removed from its
    key, as the LevelDB iterators do. *)
Definition strip (P : key) (e : key * bytes) : key * bytes :=
  (replace (fst e) P [], snd e).

(** A yielded entry as SQLite's [make_iter] cuts it. *)
Definition sql_cut (e : key * bytes) : key * bytes :=
  (skipn (Sqlite.position_to_cut (fst e)) (fst e), snd e).

Definition prefixed (P : key) (e : key * bytes) : bool := starts_with (fst e) P.

Definition below (s : key) (e : key * bytes) : bool := key_ltb (fst e) s.


(** The entries a prefix iterator of LevelDB yields from the entries its
    cursor visits, in visiting order. *)
Fixpoint yield_prefixed (P : key) (l : Table) : list (key * bytes) :=
  match l with
  | [] => []
  | e :: l' => if prefixed P e then strip P e :: yield_prefixed P l' else []
  end.

(** The calls of the collection contract, and what each returns. *)
Inductive Op :=
| OpGet (k : key)
| OpPut (k : key) (v : bytes)
| OpDel (k : key)
| OpIter (rev : bool) (prefix : key).

Inductive Obs :=
| ObsUnit (r : result unit)
| ObsGet (r : result bytes)
| ObsIter (l : list (key * bytes))
| ObsPanic.

Fixpoint run_leveldb (c : Leveldb.LeveldbCollection) (ops : list Op)
    (db : Leveldb.Database) : list Obs :=
  match ops with
  | [] => []
  | OpGet k :: ops' => ObsGet (Leveldb.get c k db) :: run_leveldb c ops' db
  | OpPut k v :: ops' =>
      let (r, db') := Leveldb.put c k v db in ObsUnit r :: run_leveldb c ops' db'
  | OpDel k :: ops' =>
      let (r, db') := Leveldb.del c k db in ObsUnit r :: run_leveldb c ops' db'
  | OpIter rv p :: ops' => ObsIter (Leveldb.iter c rv p db) :: run_leveldb c ops' db
  end.

Fixpoint run_sqlite (c : Sqlite.SqliteCollection) (ops : list Op)
    (w : Sqlite.World) : list Obs :=
  match ops with
  | [] => []
  | OpGet k :: ops' => ObsGet (Sqlite.get c k w) :: run_sqlite c ops' w
  | OpPut k v :: ops' =>
      let (r, w') := Sqlite.put c k v w in ObsUnit r :: run_sqlite c ops' w'
  | OpDel k :: ops' =>
      let (r, w') := Sqlite.del c k w in ObsUnit r :: run_sqlite c ops' w'
  | OpIter rv p :: ops' =>
      match Sqlite.iter c rv p w with
      | Some l => ObsIter l :: run_sqlite c ops' w
      | None => [ObsPanic]
      end
  end.

(** An SQLite observation with the keys LevelDB would yield instead. *)
Definition as_leveldb (op : Op) (o : Obs) : Obs :=
  match op, o with
  | OpIter _ p, ObsIter l => ObsIter (map (strip p) l)
  | _, _ => o
  end.

(** The writes of a sequence of operations on one SQLite collection. *)
Fixpoint sqlite_writes (c : Sqlite.SqliteCollection) (ops : list Op)
    (w : Sqlite.World) : Sqlite.World :=
  match ops with
  | [] => w
  | OpPut k v :: ops' => sqlite_writes c ops' (snd (Sqlite.put c k v w))
  | OpDel k :: ops' => sqlite_writes c ops' (snd (Sqlite.del c k w))
  | _ :: ops' => sqlite_writes c ops' w
  end.

(** Two SQLite collections are apart in [w] when their statements reach
    different databases or different tables (or one of them reaches no
    table at all). *)
Definition sql_apart (w : Sqlite.World) (c d : Sqlite.SqliteCollection) : bool :=
  match Sqlite.resolve (Sqlite.conn c) (Sqlite.table c) w,
        Sqlite.resolve (Sqlite.conn d) (Sqlite.table d) w with
  | Some (t1, x1), Some (t2, x2) => negb (Sqlite.target_eqb t1 t2 && key_eqb x1 x2)
  | _, _ => true
  end.

(** Keys whose characters all sort below [char::MAX]. *)
Definition below_max (k : key) : bool := forallb (fun x => (x <? char_MAX)%N) k.

(** Tables whose keys all sort their characters below [char::MAX]. *)
Definition keys_below_max (t : list (key * bytes)) : Prop :=
  Forall (fun e => below_max (fst e) = true) t.

(** One item of a prefix iterator: the entry, stripped, while it has the prefix. *)
Definition yield_one (P : key) (o : option (key * bytes)) : option (key * bytes) :=
  match o with
  | Some e => if prefixed P e then Some (strip P e) else None
  | None => None
  end.

(** Every key written by the sequence sorts its characters below [char::MAX]. *)
Definition op_keys_below_max (op : Op) : bool :=
  match op with
  | OpPut k _ => below_max k
  | _ => true
  end.

(** Every iteration of the sequence uses the empty prefix. *)
Definition op_empty_prefix (op : Op) : bool :=
  match op with
  | OpIter _ [] => true
  | OpIter _ (_ :: _) => false
  | _ => true
  end.

(** The writes of a sequence of operations on the LevelDB store. *)
Fixpoint leveldb_writes (c : Leveldb.LeveldbCollection) (ops : list Op)
    (db : Leveldb.Database) : Leveldb.Database :=
  match ops with
  | [] => db
  | OpPut k v :: ops' => leveldb_writes c ops' (snd (Leveldb.put c k v db))
  | OpDel k :: ops' => leveldb_writes c ops' (snd (Leveldb.del c k db))
  | _ :: ops' => leveldb_writes c ops' db
  end.

(** The writes of a sequence of operations on one sorted table. *)
Fixpoint tbl_writes (ops : list Op) (t : Table) : Table :=
  match ops with
  | [] => t
  | OpPut k v :: ops' => tbl_writes ops' (tbl_put k v t)
  | OpDel k :: ops' => tbl_writes ops' (tbl_del k t)
  | _ :: ops' => tbl_writes ops' t
  end.

(** A collection created by an SQLite manager, then written by [ops]. *)
Definition sqlite_setup (m : Sqlite.SqliteManager) (name : key) (ops : list Op)
    (w : Sqlite.World) : option (Sqlite.SqliteCollection * Sqlite.World) :=
  match Sqlite.create_collection m name w with
  | Some (c, w1) => Some (c, sqlite_writes c ops w1)
  | None => None
  end.

(** ** Test data of the shared test suite *)

Definition val_A : bytes := [Byte.x41].
Definition val_B : bytes := [Byte.x42].
Definition val_C : bytes := [Byte.x43].

Definition abc_ops : list Op :=
  [OpPut (str "aa") val_A; OpPut (str "ab") val_B; OpPut (str "bc") val_C].

Definition ldb_empty : Leveldb.Database :=
  {| Leveldb.entries := []; Leveldb.fault := None; Leveldb.unreadable := fun _ => false |}.

(** A process with no database yet, where no [file:] URI opens and only
    plain names denote tables. *)
Definition world0 : Sqlite.World :=
  {| Sqlite.dbs := []; Sqlite.uri_db := fun _ => None; Sqlite.name_ref := fun _ => None |}.

Definition ldb_coll (name : string) : Leveldb.LeveldbCollection :=
  Leveldb.create_collection Leveldb.mkLeveldbManager (str name).

(** The LevelDB store holding ["aa"], ["ab"], ["bc"] with values A, B, C. *)
Definition ldb_abc : Leveldb.Database := leveldb_writes (ldb_coll "t") abc_ops ldb_empty.

(** A key holding the separator [char::MAX]: ["a"], [char::MAX], ["1"]. *)
Definition sep_key : key := str "a" ++ [char_MAX] ++ str "1".

(** A database file whose every statement fails, holding table [t] with one
    row, and a collection on it. *)
Definition faulty_world : Sqlite.World :=
  {| Sqlite.dbs := [(Sqlite.FileDb (str "node.db"),
                     {| Sqlite.tables := [(str "t", [(str "k", val_A)])];
                        Sqlite.faulty := true |})];
     Sqlite.uri_db := fun _ => None; Sqlite.name_ref := fun _ => None |}.

(** The same file, healthy, with table [t] empty. *)
Definition empty_world : Sqlite.World :=
  {| Sqlite.dbs := [(Sqlite.FileDb (str "node.db"),
                     {| Sqlite.tables := [(str "t", [])]; Sqlite.faulty := false |})];
     Sqlite.uri_db := fun _ => None; Sqlite.name_ref := fun _ => None |}.

Definition file_coll : Sqlite.SqliteCollection :=
  {| Sqlite.conn := {| Sqlite.main_db := Sqlite.FileDb (str "node.db"); Sqlite.conn_id := 1 |};
     Sqlite.conn_poisoned := false; Sqlite.table := str "t" |}.

(** A LevelDB store that reports an I/O failure, and holds one entry. *)
Definition ldb_faulty : Leveldb.Database :=
  {| Leveldb.entries := [(str "k", val_A)]; Leveldb.fault := Some "IO error"%string;
     Leveldb.unreadable := fun _ => true |}.

Definition file_manager : Sqlite.SqliteManager := Sqlite.new (str "node.db").

(* ------------------------------------------------------------------ *)
(** ** The bytes of a LevelDB key ([StringKey] in [leveldb.rs])

    [StringKey::as_slice] hands LevelDB [self.0.as_bytes()], the UTF-8
    encoding of the key; [StringKey::from_u8] turns the bytes LevelDB
    returns back into a key with [String::from_utf8(key.to_vec()).unwrap()].
    The encoder and the validating decoder are those of Rust's [core]
    ([char::encode_utf8_raw], [str::run_utf8_validation],
    [str::next_code_point]); a byte slice is a list of [u8] values. *)

Module Utf8.
Local Open Scope N_scope.

Definition MAX_ONE_B : N := 0x80.
Definition MAX_TWO_B : N := 0x800.
Definition MAX_THREE_B : N := 0x10000.
Definition TAG_CONT : N := 0x80.
Definition TAG_TWO_B : N := 0xC0.
Definition TAG_THREE_B : N := 0xE0.
Definition TAG_FOUR_B : N := 0xF0.
Definition CONT_MASK : N := 0x3F.

(** [x as u8] *)
Definition as_u8 (x : N) : N := x mod 256.

(** [char::len_utf8] *)
Definition len_utf8 (code : N) : nat :=
  if code <? MAX_ONE_B then 1
  else if code <? MAX_TWO_B then 2
  else if code <? MAX_THREE_B then 3
  else 4.

(** [encode_utf8_raw]: the bytes written for one character. *)
Definition encode_utf8_raw (code : N) : list N :=
  match len_utf8 code with
  | 1%nat => [as_u8 code]
  | 2%nat => [N.lor (as_u8 (N.land (N.shiftr code 6) 0x1F)) TAG_TWO_B;
              N.lor (as_u8 (N.land code 0x3F)) TAG_CONT]
  | 3%nat => [N.lor (as_u8 (N.land (N.shiftr code 12) 0x0F)) TAG_THREE_B;
              N.lor (as_u8 (N.land (N.shiftr code 6) 0x3F)) TAG_CONT;
              N.lor (as_u8 (N.land code 0x3F)) TAG_CONT]
  | _ => [N.lor (as_u8 (N.land (N.shiftr code 18) 0x07)) TAG_FOUR_B;
          N.lor (as_u8 (N.land (N.shiftr code 12) 0x3F)) TAG_CONT;
          N.lor (as_u8 (N.land (N.shiftr code 6) 0x3F)) TAG_CONT;
          N.lor (as_u8 (N.land code 0x3F)) TAG_CONT]
  end.

(** [str::as_bytes]: a [String] stores the encodings of its characters one
    after the other. *)
Definition as_bytes (s : key) : list N := flat_map encode_utf8_raw s.

(** [utf8_char_width]: the width a leading byte announces (0: invalid). *)
Definition utf8_char_width (b : N) : nat :=
  if b <? 0x80 then 1
  else if b <? 0xC2 then 0
  else if b <? 0xE0 then 2
  else if b <? 0xF0 then 3
  else if b <? 0xF5 then 4
  else 0.

(** [next!() as i8 >= -64]: the byte is not a continuation byte. *)
Definition i8_ge_m64 (b : N) : bool := (b <? 0x80) || (0xC0 <=? b).

Definition in_range (lo hi b : N) : bool := (lo <=? b) && (b <=? hi).

(** The [match (first, next!())] of a three-byte sequence. *)
Definition second_ok3 (first b : N) : bool :=
  (first =? 0xE0) && in_range 0xA0 0xBF b
  || in_range 0xE1 0xEC first && in_range 0x80 0xBF b
  || (first =? 0xED) && in_range 0x80 0x9F b
  || in_range 0xEE 0xEF first && in_range 0x80 0xBF b.

(** The [match (first, next!())] of a four-byte sequence. *)
Definition second_ok4 (first b : N) : bool :=
  (first =? 0xF0) && in_range 0x90 0xBF b
  || in_range 0xF1 0xF3 first && in_range 0x80 0xBF b
  || (first =? 0xF4) && in_range 0x80 0x8F b.

(** [run_utf8_validation]: [true] for [Ok(())]; running out of bytes in a
    sequence ([next!()] past the end) is an error.  (Its ASCII fast path
    accepts the same bytes as the one-byte case.) *)
Fixpoint run_utf8_validation (v : list N) : bool :=
  match v with
  | [] => true
  | first :: rest =>
      if first <? 128 then run_utf8_validation rest else
      match utf8_char_width first, rest with
      | 2%nat, b1 :: rest' =>
          if i8_ge_m64 b1 then false else run_utf8_validation rest'
      | 3%nat, b1 :: b2 :: rest' =>
          if negb (second_ok3 first b1) then false
          else if i8_ge_m64 b2 then false
          else run_utf8_validation rest'
      | 4%nat, b1 :: b2 :: b3 :: rest' =>
          if negb (second_ok4 first b1) then false
          else if i8_ge_m64 b2 then false
          else if i8_ge_m64 b3 then false
          else run_utf8_validation rest'
      | _, _ => false
      end
  end.

(** [utf8_first_byte] and [utf8_acc_cont_byte]. *)
Definition utf8_first_byte (byte : N) (width : N) : N := N.land byte (N.shiftr 0x7F width).

Definition utf8_acc_cont_byte (ch byte : N) : N := N.lor (N.shiftl ch 6) (N.land byte CONT_MASK).

(** [next_code_point]: the next character and the bytes after it.  The
    source reads the continuation bytes with [unwrap_unchecked]; on
    validated input they are present, and [None] stands for the other
    case. *)
Definition next_code_point (bytes : list N) : option (N * list N) :=
  match bytes with
  | [] => None
  | x :: r =>
      if x <? 128 then Some (x, r) else
      let init := utf8_first_byte x 2 in
      match r with
      | [] => None
      | y :: r1 =>
          let ch := utf8_acc_cont_byte init y in
          if 0xE0 <=? x then
            match r1 with
            | [] => None
            | z :: r2 =>
                let y_z := utf8_acc_cont_byte (N.land y CONT_MASK) z in
                let ch := N.lor (N.shiftl init 12) y_z in
                if 0xF0 <=? x then
                  match r2 with
                  | [] => None
                  | w :: r3 =>
                      Some (N.lor (N.shiftl (N.land init 7) 18) (utf8_acc_cont_byte y_z w), r3)
                  end
                else Some (ch, r2)
            end
          else Some (ch, r1)
      end
  end.

(** The characters of the string ([Chars]): [next_code_point] until the
    bytes run out; every step consumes a byte, so [fuel] = the byte count
    suffices. *)
Fixpoint chars_go (fuel : nat) (bytes : list N) : key :=
  match fuel with
  | O => []
  | S f =>
      match next_code_point bytes with
      | Some (c, r) => c :: chars_go f r
      | None => []
      end
  end.

Definition chars (bytes : list N) : key := chars_go (length bytes) bytes.

(** [String::from_utf8]: [None] is the [Err]. *)
Definition from_utf8 (v : list N) : option key :=
  if run_utf8_validation v then Some (chars v) else None.

(** A Rust [char] is a Unicode scalar value: at most U+10FFFF and not a
    surrogate. *)
Definition is_scalar (c : N) : bool := (c <? 0xD800) || ((0xDFFF <? c) && (c <=? 0x10FFFF)).

End Utf8.

Module StringKey.

(** [as_slice]: [f(self.0.as_bytes())]; the bytes LevelDB stores and
    compares. *)
Definition as_slice (k : key) : list N := Utf8.as_bytes k.

(** [from_u8]: [String::from_utf8(key.to_vec()).unwrap()]; [None] is the
    panic of [unwrap]. *)
Definition from_u8 (bytes : list N) : option key := Utf8.from_utf8 bytes.

End StringKey.

(* ================================================================== *)
(** * Lemmas *)

(** ** The key order *)

Lemma key_compare_refl (a : key) : key_compare a a = Eq.
Proof.
  induction a as [|x a IH]; simpl; [reflexivity|].
  rewrite N.compare_refl; exact IH.
Qed.

Lemma key_compare_eq (a b : key) : key_compare a b = Eq -> a = b.
Proof.
  revert b; induction a as [|x a IH]; intros [|y b]; simpl; try discriminate; auto.
  destruct (N.compare_spec x y); try discriminate; subst.
  intro H; f_equal; auto.
Qed.

Lemma key_compare_antisym (a b : key) :
  key_compare b a = CompOpp (key_compare a b).
Proof.
  revert b; induction a as [|x a IH]; intros [|y b]; simpl; auto.
  rewrite (N.compare_antisym x y).
  destruct (N.compare x y); simpl; auto.
Qed.

Lemma key_compare_trans (a b c : key) :
  key_compare a b = Lt -> key_compare b c = Lt -> key_compare a c = Lt.
Proof.
  revert b c; induction a as [|x a IH]; intros [|y b] [|z c]; simpl;
    try discriminate; auto.
  intros H1 H2.
  destruct (N.compare_spec x y), (N.compare_spec y z), (N.compare_spec x z);
    try discriminate; try lia; subst; eauto.
Qed.

Lemma key_eqb_true (a b : key) : key_eqb a b = true <-> a = b.
Proof.
  unfold key_eqb; split.
  - destruct (key_compare a b) eqn:E; try discriminate. intros _. now apply key_compare_eq.
  - intros ->. now rewrite key_compare_refl.
Qed.

Lemma key_eqb_refl (a : key) : key_eqb a a = true.
Proof. now apply key_eqb_true. Qed.

Lemma key_eqb_lt (a b : key) : key_compare a b = Lt -> key_eqb a b = false.
Proof. unfold key_eqb; intros ->; reflexivity. Qed.

Lemma key_eqb_sym (a b : key) : key_eqb a b = key_eqb b a.
Proof.
  destruct (key_eqb a b) eqn:E; symmetry.
  - apply key_eqb_true in E; subst; apply key_eqb_refl.
  - destruct (key_eqb b a) eqn:F; [|reflexivity].
    apply key_eqb_true in F; subst; now rewrite key_eqb_refl in E.
Qed.

Lemma key_lt_irrefl (a : key) : key_compare a a <> Lt.
Proof. rewrite key_compare_refl; discriminate. Qed.

Lemma key_lt_asym (a b : key) : key_compare a b = Lt -> key_compare b a <> Lt.
Proof. intros H. rewrite (key_compare_antisym a b), H. discriminate. Qed.

(** [a <= b < c] gives [a < c]; [a < b <= c] likewise. *)
Lemma key_le_lt_trans (a b c : key) :
  key_compare b a <> Lt -> key_compare b c = Lt -> key_compare a c = Lt.
Proof.
  intros H1 H2. rewrite key_compare_antisym in H1.
  destruct (key_compare a b) eqn:E; simpl in H1.
  - apply key_compare_eq in E; subst; exact H2.
  - eapply key_compare_trans; eauto.
  - exfalso; apply H1; reflexivity.
Qed.

Lemma key_lt_le_trans (a b c : key) :
  key_compare a b = Lt -> key_compare c b <> Lt -> key_compare a c = Lt.
Proof.
  intros H1 H2. rewrite key_compare_antisym in H2.
  destruct (key_compare b c) eqn:E; simpl in H2.
  - apply key_compare_eq in E; subst; exact H1.
  - eapply key_compare_trans; eauto.
  - exfalso; apply H2; reflexivity.
Qed.

(** A key with prefix [P] is at least [P]. *)
Lemma starts_with_not_lt (k P : key) :
  starts_with k P = true -> key_compare k P <> Lt.
Proof.
  revert k; induction P as [|c P IH]; intros [|d k] H; simpl in *;
    try discriminate.
  apply andb_prop in H as [H1 H2]. apply N.eqb_eq in H1; subst.
  rewrite N.compare_refl. auto.
Qed.

(** A key at least [P] without prefix [P] is above every key with prefix [P]. *)
Lemma not_prefixed_above (k P : key) :
  key_compare k P <> Lt -> starts_with k P = false ->
  forall x, starts_with x P = true -> key_compare x k = Lt.
Proof.
  revert k; induction P as [|c P IH]; intros k H1 H2 x Hx.
  - destruct k; discriminate.
  - destruct k as [|d k]; [exfalso; apply H1; reflexivity|].
    destruct x as [|e x]; [discriminate|].
    simpl in *. apply andb_prop in Hx as [He Hx]. apply N.eqb_eq in He; subst e.
    destruct (N.compare_spec d c).
    + subst d. rewrite N.eqb_refl in H2. simpl in H2.
      rewrite N.compare_refl. apply IH; auto.
    + exfalso; apply H1; reflexivity.
    + match goal with Hl : (c < d)%N |- _ =>
        rewrite (proj2 (N.compare_lt_iff c d) Hl) end; reflexivity.
Qed.

Lemma starts_with_app (P s : key) : starts_with (P ++ s) P = true.
Proof. induction P as [|c P IH]; simpl; [reflexivity|]. now rewrite N.eqb_refl. Qed.

(** Keys strictly between a key with prefix [P] and [P ++ s] have prefix [P]. *)
Lemma between_prefixed (P s x k : key) :
  starts_with x P = true -> key_compare x k = Lt -> key_compare k (P ++ s) = Lt ->
  starts_with k P = true.
Proof.
  intros Hx Hxk Hks.
  destruct (starts_with k P) eqn:E; [reflexivity|exfalso].
  assert (HkP : key_compare k P <> Lt).
  { intro HkP. apply (starts_with_not_lt x P Hx). eapply key_compare_trans; eauto. }
  pose proof (not_prefixed_above k P HkP E (P ++ s) (starts_with_app P s)) as H.
  exact (key_lt_asym _ _ Hks H).
Qed.

(** ** Tables *)

Lemma tbl_get_put_same (k : key) (v : bytes) (t : Table) :
  tbl_get k (tbl_put k v t) = Some v.
Proof.
  induction t as [|[k' v'] t IH]; simpl; [now rewrite key_eqb_refl|].
  destruct (key_compare k k') eqn:E; simpl; try now rewrite key_eqb_refl.
  unfold key_eqb at 1; rewrite E. exact IH.
Qed.


Lemma filter_none {A : Type} (f : A -> bool) (l : list A) :
  (forall x, In x l -> f x = false) -> filter f l = [].
Proof.
  induction l as [|x l IH]; simpl; intros H; [reflexivity|].
  rewrite (H x (or_introl eq_refl)). apply IH; auto.
Qed.

Lemma put_forall (e : key * bytes) (k : key) (v : bytes) (t : Table) :
  Forall (entry_lt e) t -> key_compare (fst e) k = Lt ->
  Forall (entry_lt e) (tbl_put k v t).
Proof.
  intros Hf Hk. induction Hf as [|[k' v'] t H1 H2 IH]; simpl.
  - constructor; [exact Hk|constructor].
  - destruct (key_compare k k'); repeat constructor; auto.
Qed.

Lemma tbl_put_sorted (k : key) (v : bytes) (t : Table) :
  tbl_sorted t -> tbl_sorted (tbl_put k v t).
Proof.
  unfold tbl_sorted. intros Hs.
  induction Hs as [|[k' v'] t Hs IH Hf]; simpl.
  - repeat constructor.
  - destruct (key_compare k k') eqn:E.
    + apply key_compare_eq in E; subst k'. constructor; assumption.
    + constructor; [constructor; assumption|].
      constructor; [exact E|].
      eapply Forall_impl; [|exact Hf].
      intros [x y] Hx. unfold entry_lt in *; simpl in *. eapply key_compare_trans; eauto.
    + constructor; [exact IH|].
      apply put_forall; [exact Hf|].
      simpl. rewrite key_compare_antisym, E. reflexivity.
Qed.

Lemma del_forall (Pr : key * bytes -> Prop) (k : key) (t : Table) :
  Forall Pr t -> Forall Pr (tbl_del k t).
Proof.
  intros Hf. induction Hf as [|[k' v'] t H1 H2 IH]; simpl; [constructor|].
  destruct (key_eqb k k'); auto.
Qed.

Lemma tbl_del_sorted (k : key) (t : Table) :
  tbl_sorted t -> tbl_sorted (tbl_del k t).
Proof.
  unfold tbl_sorted. intros Hs.
  induction Hs as [|[k' v'] t Hs IH Hf]; simpl; [constructor|].
  destruct (key_eqb k k'); [exact Hs|].
  constructor; [exact IH|]. apply del_forall; exact Hf.
Qed.

Lemma filter_sorted (f : key * bytes -> bool) (t : Table) :
  tbl_sorted t -> tbl_sorted (filter f t).
Proof.
  unfold tbl_sorted. intros Hs.
  induction Hs as [|e t Hs IH Hf]; simpl; [constructor|].
  destruct (f e); [|exact IH].
  constructor; [exact IH|].
  apply Forall_forall. intros x Hx. apply filter_In in Hx as [Hx _].
  exact (proj1 (Forall_forall _ _) Hf x Hx).
Qed.

Lemma sorted_app_inv (l : Table) (e : key * bytes) :
  tbl_sorted (l ++ [e]) -> tbl_sorted l /\ Forall (fun x => entry_lt x e) l.
Proof.
  unfold tbl_sorted. induction l as [|x l IH]; simpl; intros Hs.
  - split; constructor.
  - inversion Hs as [|? ? Hs' Hf]; subst.
    destruct (IH Hs') as [H1 H2]. split.
    + constructor; [exact H1|].
      apply Forall_forall. intros y Hy.
      exact (proj1 (Forall_forall _ _) Hf y (in_or_app _ _ _ (or_introl Hy))).
    + constructor; [|exact H2].
      exact (proj1 (Forall_forall _ _) Hf e (in_or_app l [e] e (or_intror (or_introl eq_refl)))).
Qed.



(** ** LevelDB cursors and iterators *)

Module LeveldbFacts.
Import Leveldb.

Lemma next_pos_mk_pos (es : Table) (i : nat) :
  next_pos es (mk_pos es i) = mk_pos es (S i).
Proof.
  unfold mk_pos; simpl.
  destruct (Nat.ltb_spec i (length es)); [reflexivity|].
  destruct (Nat.ltb_spec (S i) (length es)); [lia|reflexivity].
Qed.

Lemma nth_error_skipn (es : Table) (i : nat) (e : key * bytes) :
  nth_error es i = Some e -> skipn i es = e :: skipn (S i) es.
Proof.
  revert es; induction i as [|i IH]; intros [|x es]; simpl; try discriminate.
  - intros H; injection H as ->; reflexivity.
  - apply IH.
Qed.

Lemma firstn_S_nth (es : Table) (j : nat) (e : key * bytes) :
  nth_error es j = Some e -> firstn (S j) es = firstn j es ++ [e].
Proof.
  revert es; induction j as [|j IH]; intros [|x es]; simpl; try discriminate.
  - intros H; injection H as ->; reflexivity.
  - intros H. f_equal. apply (IH es H).
Qed.

Lemma nth_error_lt (es : Table) (i : nat) :
  i < length es -> exists e, nth_error es i = Some e.
Proof.
  intros H. destruct (nth_error es i) as [e|] eqn:E; [eauto|].
  apply nth_error_None in E; lia.
Qed.

Lemma seek_index_le (es : Table) (k : key) : seek_index es k <= length es.
Proof.
  induction es as [|[k' v'] es IH]; simpl; [lia|].
  destruct (key_ltb k' k); lia.
Qed.

Lemma drain_S {St A : Type} (f : nat) (step : St -> St * option A) (s : St) :
  drain (S f) step s =
  match step s with (s', Some x) => x :: drain f step s' | (_, None) => [] end.
Proof. reflexivity. Qed.

Lemma yield_one_eq (P : key) (c : Cursor) (o : option (key * bytes)) :
  (let (value, data) := (c, o) in
   match data with
   | Some (value0, data0) =>
       if negb (starts_with value0 P) then (value, None)
       else (value, Some (replace value0 P [], data0))
   | None => (value, None)
   end) = (c, yield_one P o).
Proof.
  destruct o as [[k v]|]; simpl; [|reflexivity].
  unfold prefixed, strip; simpl. destruct (starts_with k P); reflexivity.
Qed.

Lemma step_fwd (P : key) (es : Table) (i : nat) (b : bool) :
  prefix_next (advance_fwd es) es P {| pos := mk_pos es i; start := b |} =
  ({| pos := mk_pos es (if b then i else S i); start := false |},
   yield_one P (nth_error es (if b then i else S i))).
Proof.
  set (n := if b then i else S i).
  assert (Ha : advance_fwd es {| pos := mk_pos es i; start := b |}
               = ({| pos := mk_pos es n; start := false |},
                  valid {| pos := mk_pos es n; start := false |})).
  { unfold advance_fwd, advance, n; destruct b; simpl; [reflexivity|].
    now rewrite next_pos_mk_pos. }
  unfold prefix_next, raw_next. rewrite Ha.
  unfold valid, current; simpl pos.
  unfold mk_pos. destruct (Nat.ltb_spec n (length es)).
  - apply yield_one_eq.
  - assert (nth_error es n = None) as -> by (apply nth_error_None; lia).
    reflexivity.
Qed.

Lemma step_rev (P : key) (es : Table) (j : nat) (b : bool) :
  j < length es ->
  prefix_next advance_rev es P {| pos := Some j; start := b |} =
  ({| pos := if b then Some j else prev_pos (Some j); start := false |},
   yield_one P (if b then nth_error es j
                else match j with O => None | S j' => nth_error es j' end)).
Proof.
  intros Hj. unfold prefix_next, raw_next, advance_rev, advance, valid, current.
  simpl start.
  destruct b; simpl.
  - destruct (nth_error_lt es j Hj) as [[k v] He]. rewrite He.
    unfold yield_one, prefixed, strip; simpl. destruct (starts_with k P); reflexivity.
  - destruct j as [|j]; simpl; [reflexivity|].
    destruct (nth_error_lt es j ltac:(lia)) as [[k v] He]. rewrite He.
    unfold yield_one, prefixed, strip; simpl. destruct (starts_with k P); reflexivity.
Qed.

(** A forward iterator at index [i] yields the entries from [i] on, or from
    [i + 1] on once started. *)
Lemma drain_fwd (P : key) (es : Table) (fuel i : nat) (b : bool) :
  length es - (if b then i else S i) < fuel ->
  drain fuel (prefix_next (advance_fwd es) es P) {| pos := mk_pos es i; start := b |}
  = yield_prefixed P (skipn (if b then i else S i) es).
Proof.
  revert i b; induction fuel as [|f IH]; intros i b Hf; [lia|].
  rewrite drain_S, step_fwd.
  set (n := if b then i else S i) in *.
  destruct (nth_error es n) as [[k v]|] eqn:He.
  - assert (Hn : n < length es) by (apply nth_error_Some; rewrite He; discriminate).
    rewrite (nth_error_skipn es n (k, v) He). simpl yield_one. simpl yield_prefixed.
    destruct (prefixed P (k, v)); cbv beta iota; [|reflexivity].
    f_equal. apply (IH n false). lia.
  - rewrite skipn_all2; [reflexivity|]. apply nth_error_None in He. exact He.
Qed.

(** A reverse iterator at a valid index [j] yields the entries [j], ...,
    [0], or [j - 1], ..., [0] once started. *)
Lemma drain_rev (P : key) (es : Table) (fuel j : nat) (b : bool) :
  j < length es -> (if b then S j else j) <= fuel ->
  drain fuel (prefix_next advance_rev es P) {| pos := Some j; start := b |}
  = yield_prefixed P (rev (firstn (if b then S j else j) es)).
Proof.
  revert j b; induction fuel as [|f IH]; intros j b Hj Hf.
  - destruct b; [lia|]. assert (j = 0) by lia; subst. reflexivity.
  - rewrite drain_S, (step_rev P es j b Hj).
    destruct b.
    + destruct (nth_error_lt es j Hj) as [[k v] He].
      rewrite He, (firstn_S_nth es j (k, v) He), rev_app_distr.
      simpl yield_one. simpl app. simpl yield_prefixed.
      destruct (prefixed P (k, v)); cbv beta iota; [|reflexivity].
      f_equal. apply (IH j false); lia.
    + destruct j as [|j]; [reflexivity|].
      destruct (nth_error_lt es j ltac:(lia)) as [[k v] He].
      rewrite He, (firstn_S_nth es j (k, v) He), rev_app_distr.
      simpl yield_one. simpl prev_pos. simpl app. simpl yield_prefixed.
      destruct (prefixed P (k, v)); cbv beta iota; [|reflexivity].
      f_equal. apply (IH j false); lia.
Qed.

(** Forward iteration: the entries from the first key [>= prefix] on, while
    they have the prefix. *)
Lemma iter_fwd_list (c : LeveldbCollection) (P : key) (db : Database) :
  iter c false P db = yield_prefixed P (skipn (seek_index (view db) P) (view db)).
Proof.
  unfold iter. cbv beta iota zeta.
  apply (drain_fwd P (view db) _ _ true). lia.
Qed.

(** Reverse iteration: the entries below the sentinel, from the last one
    down, while they have the prefix. *)
Lemma iter_rev_list (c : LeveldbCollection) (P : key) (db : Database) :
  iter c true P db
  = yield_prefixed P (rev (firstn (seek_index (view db) (sentinel P)) (view db))).
Proof.
  unfold iter. cbv beta iota zeta.
  set (es := view db). set (j := seek_index es (sentinel P)).
  assert (Hit : seek es (sentinel P) (reverse es (iter_new es))
                = {| pos := mk_pos es j; start := true |}) by reflexivity.
  rewrite Hit.
  assert (Hj : j <= length es) by apply seek_index_le.
  destruct (Nat.ltb_spec j (length es)) as [Hlt|Hge].
  - assert (Hm : mk_pos es j = Some j)
      by (unfold mk_pos; destruct (Nat.ltb_spec j (length es)); [reflexivity|lia]).
    rewrite Hm.
    destruct (nth_error_lt es j Hlt) as [e He].
    assert (Hpk : snd (raw_next advance_rev es {| pos := Some j; start := true |})
                  = Some e)
      by (unfold raw_next, advance_rev, advance, valid, current; simpl; exact He).
    rewrite Hpk.
    change (fst (advance_rev {| pos := Some j; start := true |}))
      with {| pos := Some j; start := false |}.
    apply (drain_rev P es _ j false); [exact Hlt|lia].
  - assert (j = length es) as Heq by lia.
    assert (Hm : mk_pos es j = None)
      by (unfold mk_pos; destruct (Nat.ltb_spec j (length es)); [lia|reflexivity]).
    rewrite Hm.
    change (snd (raw_next advance_rev es {| pos := None; start := true |})) with
      (@None (key * bytes)).
    cbv beta iota. rewrite Heq, firstn_all.
    unfold reverse, iter_new; simpl start; cbv iota.
    destruct (length es) as [|n] eqn:Hlen.
    + apply length_zero_iff_nil in Hlen. rewrite Hlen. reflexivity.
    + rewrite <- (firstn_all es) at 2. rewrite Hlen.
      apply (drain_rev P es _ n true); lia.
Qed.

Lemma key_ltb_iff (a b : key) : key_ltb a b = true <-> key_compare a b = Lt.
Proof. unfold key_ltb. destruct (key_compare a b); split; congruence. Qed.

Lemma key_ltb_false (a b : key) : key_ltb a b = false -> key_compare a b <> Lt.
Proof. unfold key_ltb. destruct (key_compare a b); congruence. Qed.

(** On sorted entries at least [P], taking while the prefix holds is
    filtering by it. *)
Lemma yield_all_above (P : key) (l : Table) :
  tbl_sorted l -> Forall (fun e => key_compare (fst e) P <> Lt) l ->
  yield_prefixed P l = map (strip P) (filter (prefixed P) l).
Proof.
  unfold tbl_sorted. intros Hs. induction Hs as [|e l Hs IH Hf]; intros Ha;
    [reflexivity|].
  inversion Ha as [|? ? HeP Hl]; subst. simpl.
  destruct (prefixed P e) eqn:Ep; simpl.
  - f_equal. apply IH; exact Hl.
  - rewrite filter_none; [reflexivity|]. intros x Hx.
    destruct (prefixed P x) eqn:Ex; [exfalso|reflexivity].
    pose proof (not_prefixed_above (fst e) P HeP Ep (fst x) Ex) as Hxe.
    pose proof (proj1 (Forall_forall _ _) Hf x Hx) as Hex. unfold entry_lt in Hex.
    exact (key_lt_asym _ _ Hex Hxe).
Qed.

Lemma fwd_sorted (P : key) (es : Table) :
  tbl_sorted es ->
  yield_prefixed P (skipn (seek_index es P) es) = map (strip P) (filter (prefixed P) es).
Proof.
  intros Hs. induction Hs as [|[k v] es Hs IH Hf]; [reflexivity|].
  simpl seek_index. destruct (key_ltb k P) eqn:E.
  - simpl skipn. rewrite IH. simpl filter.
    destruct (prefixed P (k, v)) eqn:Ep; [|reflexivity].
    exfalso. apply (starts_with_not_lt k P Ep). apply key_ltb_iff; exact E.
  - simpl skipn. apply yield_all_above; [constructor; assumption|].
    apply key_ltb_false in E.
    constructor; [exact E|].
    apply Forall_forall. intros x Hx Hlt.
    pose proof (proj1 (Forall_forall _ _) Hf x Hx) as Hkx. unfold entry_lt in Hkx.
    simpl in Hkx. apply E. eapply key_compare_trans; eauto.
Qed.

Lemma firstn_seek_sorted (es : Table) (s : key) :
  tbl_sorted es -> firstn (seek_index es s) es = filter (below s) es.
Proof.
  intros Hs. induction Hs as [|[k v] es Hs IH Hf]; [reflexivity|].
  simpl seek_index. unfold below at 1; simpl fst. simpl filter.
  destruct (key_ltb k s) eqn:E.
  - simpl firstn. f_equal. exact IH.
  - simpl firstn. symmetry. apply filter_none. intros x Hx.
    unfold below. destruct (key_ltb (fst x) s) eqn:Ex; [exfalso|reflexivity].
    apply key_ltb_false in E. apply key_ltb_iff in Ex.
    pose proof (proj1 (Forall_forall _ _) Hf x Hx) as Hkx. unfold entry_lt in Hkx.
    simpl in Hkx. apply E. eapply key_compare_trans; eauto.
Qed.

(** On sorted entries below the sentinel, walking down from the top while
    the prefix holds is filtering by it. *)
Lemma yield_rev_below (P : key) (l : Table) :
  tbl_sorted l -> Forall (fun e => below (sentinel P) e = true) l ->
  yield_prefixed P (rev l) = map (strip P) (rev (filter (prefixed P) l)).
Proof.
  induction l as [|e l IH] using rev_ind; intros Hs Hb; [reflexivity|].
  apply sorted_app_inv in Hs as [Hs Hlt].
  apply Forall_app in Hb as [Hb He]. inversion He as [|? ? Heb _]; subst.
  rewrite rev_unit, filter_app. simpl filter. simpl yield_prefixed.
  destruct (prefixed P e) eqn:Ep.
  - rewrite rev_app_distr. simpl. f_equal. apply IH; assumption.
  - rewrite app_nil_r.
    assert (filter (prefixed P) l = []) as -> ; [|reflexivity].
    apply filter_none. intros x Hx.
    destruct (prefixed P x) eqn:Ex; [exfalso|reflexivity].
    pose proof (proj1 (Forall_forall _ _) Hlt x Hx) as Hxe. unfold entry_lt in Hxe.
    unfold below in Heb. apply key_ltb_iff in Heb.
    unfold sentinel in Heb.
    pose proof (between_prefixed P [char_MAX; char_MAX] (fst x) (fst e) Ex Hxe Heb) as H.
    unfold prefixed in Ep. congruence.
Qed.

Lemma view_sorted (db : Database) : tbl_sorted (entries db) -> tbl_sorted (view db).
Proof. unfold view. destruct (fault db); [apply filter_sorted|auto]. Qed.

(** Forward iteration over sorted entries: the entries with the prefix, in
    ascending order, stripped. *)
Lemma iter_fwd_sorted (c : LeveldbCollection) (P : key) (db : Database) :
  tbl_sorted (view db) ->
  iter c false P db = map (strip P) (filter (prefixed P) (view db)).
Proof. intros Hs. rewrite iter_fwd_list. apply fwd_sorted; exact Hs. Qed.

(** Reverse iteration over sorted entries: the entries with the prefix that
    sort below the sentinel, in descending order, stripped. *)
Lemma iter_rev_sorted (c : LeveldbCollection) (P : key) (db : Database) :
  tbl_sorted (view db) ->
  iter c true P db
  = map (strip P) (rev (filter (prefixed P) (filter (below (sentinel P)) (view db)))).
Proof.
  intros Hs. rewrite iter_rev_list, firstn_seek_sorted by exact Hs.
  apply yield_rev_below.
  - apply filter_sorted; exact Hs.
  - apply Forall_forall. intros x Hx. apply filter_In in Hx as [_ Hx]. exact Hx.
Qed.

End LeveldbFacts.

(** ** SQLite worlds and collections *)

Module SqliteFacts.
Import Sqlite.

Lemma target_eqb_true (a b : Target) : target_eqb a b = true <-> a = b.
Proof.
  destruct a as [p|i|p|i], b as [q|j|q|j]; simpl; split; try discriminate; intros H;
    try (apply key_eqb_true in H; subst; reflexivity);
    try (apply Nat.eqb_eq in H; subst; reflexivity);
    injection H as ->; first [apply key_eqb_refl | apply Nat.eqb_refl].
Qed.

Lemma target_eqb_refl (a : Target) : target_eqb a a = true.
Proof. now apply target_eqb_true. Qed.

Lemma target_eqb_false (a b : Target) : a <> b -> target_eqb a b = false.
Proof.
  intros H. destruct (target_eqb a b) eqn:E; [|reflexivity].
  apply target_eqb_true in E. contradiction.
Qed.

Lemma assoc_db_set_same (t : Target) (d : Db) (l : list (Target * Db)) :
  assoc_db t (set_assoc_db t d l) = Some d.
Proof.
  induction l as [|[t' d'] l IH]; simpl; [now rewrite target_eqb_refl|].
  destruct (target_eqb t t') eqn:E; simpl; [now rewrite E|]. rewrite E. exact IH.
Qed.

Lemma assoc_db_set_other (t u : Target) (d : Db) (l : list (Target * Db)) :
  target_eqb u t = false -> assoc_db u (set_assoc_db t d l) = assoc_db u l.
Proof.
  intros Hne. induction l as [|[t' d'] l IH]; simpl; [now rewrite Hne|].
  destruct (target_eqb t t') eqn:E; simpl.
  - apply target_eqb_true in E; subst t'. now rewrite Hne.
  - destruct (target_eqb u t'); [reflexivity|exact IH].
Qed.

Lemma assoc_table_set_same (n : key) (t : Table) (l : list (key * Table)) :
  assoc_table n (set_assoc_table n t l) = Some t.
Proof.
  induction l as [|[n' t'] l IH]; simpl; [now rewrite key_eqb_refl|].
  destruct (key_eqb n n') eqn:E; simpl; [now rewrite E|]. rewrite E. exact IH.
Qed.

Lemma assoc_table_set_other (n m : key) (t : Table) (l : list (key * Table)) :
  key_eqb m n = false -> assoc_table m (set_assoc_table n t l) = assoc_table m l.
Proof.
  intros Hne. induction l as [|[n' t'] l IH]; simpl; [now rewrite Hne|].
  destruct (key_eqb n n') eqn:E; simpl.
  - apply key_eqb_true in E; subst n'. now rewrite Hne.
  - destruct (key_eqb m n'); [reflexivity|exact IH].
Qed.

(** Reading a database other than the one set. *)
Lemma db_of_set_other (t u : Target) (d : Db) (w : World) :
  target_eqb u t = false -> db_of u (set_db t d w) = db_of u w.
Proof. intros H. unfold db_of, set_db. simpl. apply assoc_db_set_other, H. Qed.

Lemma db_of_set_same (t : Target) (d : Db) (w : World) : db_of t (set_db t d w) = Some d.
Proof. unfold db_of, set_db. simpl. apply assoc_db_set_same. Qed.

(** Names resolve by [name_ref] only, which no update of a database touches. *)
Lemma resolve_set_db (cn : Conn) (n : key) (t : Target) (d : Db) (w : World) :
  resolve cn n (set_db t d w) = resolve cn n w.
Proof. reflexivity. Qed.

Lemma store_readings (c : SqliteCollection) (tb : Table) (w : World) :
  name_ref (store_table c tb w) = name_ref w /\ uri_db (store_table c tb w) = uri_db w.
Proof.
  unfold store_table. destruct (resolve (conn c) (table c) w) as [[t x]|]; [|auto].
  destruct (db_of t w); auto.
Qed.

Lemma resolve_store (cn : Conn) (n : key) (c : SqliteCollection) (tb : Table) (w : World) :
  resolve cn n (store_table c tb w) = resolve cn n w.
Proof. unfold resolve. rewrite (proj1 (store_readings c tb w)). reflexivity. Qed.

Lemma query_store_same (c : SqliteCollection) (t t' : Table) (w : World) :
  query_table c w = Some t -> query_table c (store_table c t' w) = Some t'.
Proof.
  unfold query_table at 2. rewrite resolve_store.
  unfold query_table, store_table.
  destruct (resolve (conn c) (table c) w) as [[tg x]|]; [|discriminate].
  destruct (db_of tg w) as [d|]; [|discriminate].
  rewrite db_of_set_same. simpl.
  destruct (faulty d); [discriminate|]. intros _.
  apply assoc_table_set_same.
Qed.

(** Storing a table through [c] leaves what an apart collection [d] reads. *)
Lemma query_store_apart (c d : SqliteCollection) (t' : Table) (w : World) :
  sql_apart w c d = true -> query_table d (store_table c t' w) = query_table d w.
Proof.
  intros H. unfold query_table at 1. rewrite resolve_store. revert H.
  unfold sql_apart, query_table, store_table.
  destruct (resolve (conn c) (table c) w) as [[tc xc]|]; [|reflexivity].
  destruct (db_of tc w) as [dc|] eqn:Edc;
    [|destruct (resolve (conn d) (table d) w) as [[td xd]|]; reflexivity].
  destruct (resolve (conn d) (table d) w) as [[td xd]|]; [|reflexivity].
  intros H. destruct (target_eqb td tc) eqn:Et.
  - apply target_eqb_true in Et. subst td.
    rewrite db_of_set_same, Edc. simpl.
    rewrite target_eqb_refl in H. simpl in H.
    destruct (faulty dc); [reflexivity|].
    apply assoc_table_set_other. rewrite key_eqb_sym.
    destruct (key_eqb xc xd); simpl in H; [discriminate|reflexivity].
  - rewrite db_of_set_other by exact Et. reflexivity.
Qed.

Lemma put_world (c : SqliteCollection) (k : key) (v : bytes) (w : World) :
  snd (put c k v w) = w \/
  exists t, query_table c w = Some t /\ snd (put c k v w) = store_table c (tbl_put k v t) w.
Proof.
  unfold put. destruct (conn_poisoned c); [left; reflexivity|].
  destruct (query_table c w) as [t|]; [right; exists t; auto|left; reflexivity].
Qed.

Lemma del_world (c : SqliteCollection) (k : key) (w : World) :
  snd (del c k w) = w \/
  exists t, query_table c w = Some t /\ snd (del c k w) = store_table c (tbl_del k t) w.
Proof.
  unfold del. destruct (conn_poisoned c); [left; reflexivity|].
  destruct (query_table c w) as [t|]; [right; exists t; auto|left; reflexivity].
Qed.

Lemma put_readings (c : SqliteCollection) (k : key) (v : bytes) (w : World) :
  name_ref (snd (put c k v w)) = name_ref w /\ uri_db (snd (put c k v w)) = uri_db w.
Proof.
  destruct (put_world c k v w) as [->|[t [_ ->]]]; [auto|apply store_readings].
Qed.

Lemma del_readings (c : SqliteCollection) (k : key) (w : World) :
  name_ref (snd (del c k w)) = name_ref w /\ uri_db (snd (del c k w)) = uri_db w.
Proof.
  destruct (del_world c k w) as [->|[t [_ ->]]]; [auto|apply store_readings].
Qed.

Lemma sql_apart_readings (w w' : World) (c d : SqliteCollection) :
  name_ref w' = name_ref w -> sql_apart w' c d = sql_apart w c d.
Proof. intros H. unfold sql_apart, resolve. rewrite H. reflexivity. Qed.

(** Writes through [c] never change what an apart collection [d] reads. *)
Lemma writes_apart (c d : SqliteCollection) (ops : list Op) (w : World) :
  sql_apart w c d = true -> query_table d (sqlite_writes c ops w) = query_table d w.
Proof.
  revert w. induction ops as [|op ops IH]; intros w H; [reflexivity|].
  destruct op as [k|k v|k|rv p]; simpl.
  - apply IH, H.
  - rewrite IH by (rewrite (sql_apart_readings w); [exact H|apply put_readings]).
    destruct (put_world c k v w) as [->|[t [_ ->]]]; [reflexivity|].
    apply query_store_apart; exact H.
  - rewrite IH by (rewrite (sql_apart_readings w); [exact H|apply del_readings]).
    destruct (del_world c k w) as [->|[t [_ ->]]]; [reflexivity|].
    apply query_store_apart; exact H.
  - apply IH, H.
Qed.



Lemma collect_rows_eq (P : key) (rows : Table) :
  collect_rows P rows = map sql_cut (filter (prefixed P) rows).
Proof.
  induction rows as [|[k v] rows IH]; simpl; [reflexivity|].
  unfold prefixed at 1; simpl fst.
  destruct (starts_with k P); simpl; [|exact IH].
  f_equal. exact IH.
Qed.

(** Iterating a healthy, unpoisoned collection. *)
Lemma iter_table (c : SqliteCollection) (rv : bool) (P : key) (w : World) (t : Table) :
  conn_poisoned c = false -> query_table c w = Some t ->
  iter c rv P w = Some (map sql_cut (filter (prefixed P) (if rv then rev t else t))).
Proof.
  intros Hp Hq. unfold iter, make_iter. rewrite Hp, Hq. simpl.
  rewrite collect_rows_eq. reflexivity.
Qed.

Lemma create_collection_fields (m : SqliteManager) (n : key) (w : World)
    (c : SqliteCollection) (w' : World) :
  create_collection m n w = Some (c, w') ->
  conn_poisoned c = false /\ table c = n /\
  exists w1, open (path m) w = Some (conn c, w1) /\ create_table (conn c) n w1 = Some w'.
Proof.
  unfold create_collection.
  destruct (open (path m) w) as [[cn w1]|] eqn:Eo; [|discriminate].
  destruct (create_table cn n w1) as [w2|] eqn:Ec; [|discriminate].
  intros H; injection H as <- <-. simpl. repeat split. exists w1; auto.
Qed.

(** *** Connection numbers *)

Lemma max_id_set (t : Target) (d : Db) (l : list (Target * Db)) :
  max_id (set_assoc_db t d l) = Nat.max (target_id t) (max_id l).
Proof.
  induction l as [|[t' d'] l IH]; simpl; [lia|].
  destruct (target_eqb t t') eqn:E; simpl.
  - apply target_eqb_true in E; subst t'. lia.
  - unfold max_id in IH |- *. simpl. rewrite IH. lia.
Qed.

Lemma max_id_set_db (t : Target) (d : Db) (w : World) :
  max_id (dbs (set_db t d w)) = Nat.max (target_id t) (max_id (dbs w)).
Proof. apply max_id_set. Qed.

Lemma fresh_set (t : Target) (d : Db) (w : World) :
  fresh_id (set_db t d w) = S (Nat.max (target_id t) (max_id (dbs w))).
Proof. unfold fresh_id, set_db. simpl. rewrite max_id_set. reflexivity. Qed.



(** What [open] does, by the kind of path. *)
Lemma open_spec (p : key) (w w1 : World) (cn : Conn) :
  open p w = Some (cn, w1) ->
  conn_id cn = fresh_id w
  /\ ((open_kind p w = OpenPrivate /\ main_db cn = MemDb (conn_id cn)
       /\ w1 = set_db (MemDb (conn_id cn)) empty_db (set_db (TempDb (conn_id cn)) empty_db w))
      \/ (((exists q, open_kind p w = OpenFile q /\ main_db cn = FileDb q)
           \/ (exists q, open_kind p w = OpenShared q /\ main_db cn = SharedMemDb q))
          /\ ((w1 = set_db (TempDb (conn_id cn)) empty_db w
               /\ exists d, db_of (main_db cn) w = Some d /\ faulty d = false)
              \/ (w1 = set_db (main_db cn) empty_db (set_db (TempDb (conn_id cn)) empty_db w)
                  /\ db_of (main_db cn) w = None)))).
Proof.
  unfold open. destruct (open_kind p w) as [q|q| |] eqn:Ek.
  - destruct (db_of (FileDb q) w) as [d|] eqn:Ed.
    + destruct (faulty d) eqn:Ef; [discriminate|].
      intros H; injection H as <- <-. simpl. split; [reflexivity|right].
      split; [left; eauto|]. left. eauto.
    + intros H; injection H as <- <-. simpl. split; [reflexivity|right].
      split; [left; eauto|]. right. auto.
  - destruct (db_of (SharedMemDb q) w) as [d|] eqn:Ed.
    + destruct (faulty d) eqn:Ef; [discriminate|].
      intros H; injection H as <- <-. simpl. split; [reflexivity|right].
      split; [right; eauto|]. left. eauto.
    + intros H; injection H as <- <-. simpl. split; [reflexivity|right].
      split; [right; eauto|]. right. auto.
  - intros H; injection H as <- <-. simpl. auto.
  - discriminate.
Qed.

(** A connection's main database is never a [temp] database. *)
Lemma open_main_not_temp (p : key) (w w1 : World) (cn : Conn) (i : nat) :
  open p w = Some (cn, w1) -> target_eqb (main_db cn) (TempDb i) = false.
Proof.
  intros H.
  destruct (open_spec p w w1 cn H) as [_ [[_ [-> _]]|[[[q [_ ->]]|[q [_ ->]]] _]]];
    reflexivity.
Qed.

Lemma open_readings (p : key) (w w1 : World) (cn : Conn) :
  open p w = Some (cn, w1) ->
  fresh_id w1 > fresh_id w /\ name_ref w1 = name_ref w /\ uri_db w1 = uri_db w.
Proof.
  intros H. destruct (open_spec p w w1 cn H) as [Hid [[_ [_ ->]]|[_ [[-> _]|[-> _]]]]];
    (split; [|unfold set_db; simpl; auto]);
    unfold fresh_id in Hid |- *; rewrite ?max_id_set_db; simpl target_id; lia.
Qed.

Lemma create_table_readings (cn : Conn) (n : key) (w w' : World) :
  create_table cn n w = Some w' ->
  fresh_id w' >= fresh_id w /\ name_ref w' = name_ref w /\ uri_db w' = uri_db w.
Proof.
  unfold create_table. destruct (resolve cn n w) as [[t x]|]; [|discriminate].
  destruct (db_of t w) as [d|]; [|discriminate].
  destruct (faulty d); [discriminate|].
  destruct (assoc_table x (tables d)); intros H; injection H as <-; [auto|].
  rewrite fresh_set. unfold set_db, fresh_id. simpl. split; [lia|auto].
Qed.

Lemma create_readings (m : SqliteManager) (n : key) (w w' : World) (c : SqliteCollection) :
  create_collection m n w = Some (c, w') ->
  conn_id (conn c) = fresh_id w /\ fresh_id w' > fresh_id w
  /\ name_ref w' = name_ref w /\ uri_db w' = uri_db w.
Proof.
  intros H. destruct (create_collection_fields m n w c w' H) as [_ [_ [w1 [Ho Hc]]]].
  destruct (open_readings _ _ _ _ Ho) as [F1 [N1 U1]].
  destruct (create_table_readings _ _ _ _ Hc) as [F2 [N2 U2]].
  split; [exact (proj1 (open_spec _ _ _ _ Ho))|].
  split; [lia|]. split; congruence.
Qed.

Lemma store_fresh (c : SqliteCollection) (tb : Table) (w : World) :
  fresh_id (store_table c tb w) >= fresh_id w.
Proof.
  unfold store_table. destruct (resolve (conn c) (table c) w) as [[t x]|]; [|lia].
  destruct (db_of t w); [|lia]. rewrite fresh_set. unfold fresh_id. lia.
Qed.

(** Along a run, connection numbers only grow and the two readings stay. *)
Lemma reach_readings (w w' : World) :
  reach w w' -> fresh_id w' >= fresh_id w /\ name_ref w' = name_ref w /\ uri_db w' = uri_db w.
Proof.
  induction 1 as [w|c k v w w' _ [F [N U]]|c k w w' _ [F [N U]]|m n w c w1 w' Hc _ [F [N U]]].
  - auto.
  - destruct (put_world c k v w) as [E|[t [_ E]]]; rewrite E in F, N, U; [auto|].
    pose proof (store_fresh c (tbl_put k v t) w).
    destruct (store_readings c (tbl_put k v t) w). split; [lia|split; congruence].
  - destruct (del_world c k w) as [E|[t [_ E]]]; rewrite E in F, N, U; [auto|].
    pose proof (store_fresh c (tbl_del k t) w).
    destruct (store_readings c (tbl_del k t) w). split; [lia|split; congruence].
  - destruct (create_readings m n w w1 c Hc) as [_ [F1 [N1 U1]]].
    split; [lia|split; congruence].
Qed.

(** *** [CREATE TABLE] *)

Lemma resolve_cases (cn : Conn) (n : key) (w : World) (t : Target) (x : key) :
  resolve cn n w = Some (t, x) ->
  (table_ref (name_ref w) n = Some (Main, x) /\ t = main_db cn)
  \/ (table_ref (name_ref w) n = Some (Temp, x) /\ t = TempDb (conn_id cn)).
Proof.
  unfold resolve. destruct (table_ref (name_ref w) n) as [[[|] x']|]; try discriminate;
    intros H; injection H as <- <-; auto.
Qed.

(** After [CREATE TABLE IF NOT EXISTS], the collection reads the table it
    found, or a new empty one. *)
Lemma create_table_query (cn : Conn) (n : key) (w1 w2 : World) (b : bool) :
  create_table cn n w1 = Some w2 ->
  exists t x d, resolve cn n w1 = Some (t, x) /\ db_of t w1 = Some d /\ faulty d = false
    /\ query_table {| conn := cn; conn_poisoned := b; table := n |} w2
       = Some match assoc_table x (tables d) with Some tb => tb | None => [] end.
Proof.
  unfold create_table. destruct (resolve cn n w1) as [[t x]|] eqn:Er; [|discriminate].
  destruct (db_of t w1) as [d|] eqn:Ed; [|discriminate].
  destruct (faulty d) eqn:Ef; [discriminate|].
  intros H. exists t, x, d.
  split; [|split; [|split]]; try (first [reflexivity|assumption]).
  unfold query_table; simpl.
  destruct (assoc_table x (tables d)) as [tb|] eqn:Ea; injection H as <-.
  - rewrite Er, Ed, Ef, Ea. reflexivity.
  - rewrite resolve_set_db, Er, db_of_set_same. simpl.
    rewrite assoc_table_set_same. reflexivity.
Qed.

End SqliteFacts.

(* ------------------------------------------------------------------ *)
(** ** Facts shared by the two backends *)

Module CommonFacts.

Lemma replace_nil_nil (k : key) : replace k [] [] = k.
Proof. induction k as [|c k IH]; simpl; [reflexivity|]. f_equal. exact IH. Qed.

(** With the empty prefix LevelDB yields the stored keys unchanged. *)
Lemma map_strip_nil (l : list (key * bytes)) : map (strip []) l = l.
Proof.
  induction l as [|[k v] l IH]; [reflexivity|].
  change (map (strip []) ((k, v) :: l)) with ((replace k [] [], v) :: map (strip []) l).
  rewrite replace_nil_nil, IH. reflexivity.
Qed.

Lemma rfind_go_below (k : key) (i : nat) :
  below_max k = true -> rfind_go k char_MAX i None = None.
Proof.
  revert i. induction k as [|d k IH]; intros i H; simpl; [reflexivity|].
  unfold below_max in H. simpl in H. apply andb_prop in H as [Hd Hk].
  apply N.ltb_lt in Hd.
  replace (N.eqb d char_MAX) with false by (symmetry; apply N.eqb_neq; lia).
  apply IH. exact Hk.
Qed.

(** Keys without the separator are yielded whole by SQLite. *)
Lemma sql_cut_below (e : key * bytes) : below_max (fst e) = true -> sql_cut e = e.
Proof.
  destruct e as [k v]. simpl. intros H. unfold sql_cut, Sqlite.position_to_cut, rfind.
  simpl. rewrite (rfind_go_below k O H). reflexivity.
Qed.

Lemma map_sql_cut_below (l : list (key * bytes)) :
  keys_below_max l -> map sql_cut l = l.
Proof.
  induction 1 as [|e l He _ IH]; simpl; [reflexivity|].
  rewrite sql_cut_below, IH by exact He. reflexivity.
Qed.

Lemma starts_with_split (k P : key) : starts_with k P = true -> exists s, k = P ++ s.
Proof.
  revert k. induction P as [|c P IH]; intros k H; [exists k; reflexivity|].
  destruct k as [|d k]; simpl in H; [discriminate|].
  apply andb_prop in H as [Hc Hk]. apply N.eqb_eq in Hc; subst d.
  destruct (IH k Hk) as [s ->]. exists s. reflexivity.
Qed.

Lemma key_compare_app (P s t : key) : key_compare (P ++ s) (P ++ t) = key_compare s t.
Proof. induction P as [|c P IH]; simpl; [reflexivity|]. rewrite N.compare_refl. exact IH. Qed.

(** A key with the prefix and no [char::MAX] sorts below the sentinel. *)
Lemma prefixed_below_sentinel (P : key) (e : key * bytes) :
  prefixed P e = true -> below_max (fst e) = true -> below (Leveldb.sentinel P) e = true.
Proof.
  destruct e as [k v]. unfold prefixed, below, Leveldb.sentinel. simpl. intros Hp Hb.
  destruct (starts_with_split k P Hp) as [s ->].
  unfold below_max in Hb. rewrite forallb_app in Hb. apply andb_prop in Hb as [_ Hs].
  unfold key_ltb. rewrite key_compare_app.
  destruct s as [|x s]; simpl; [reflexivity|].
  simpl in Hs. apply andb_prop in Hs as [Hx _]. apply N.ltb_lt in Hx.
  rewrite (proj2 (N.compare_lt_iff x char_MAX) Hx). reflexivity.
Qed.

Lemma filter_all {A : Type} (f : A -> bool) (l : list A) :
  Forall (fun x => f x = true) l -> filter f l = l.
Proof. induction 1 as [|x l Hx _ IH]; simpl; [reflexivity|]. rewrite Hx, IH. reflexivity. Qed.

Lemma filter_comm {A : Type} (f g : A -> bool) (l : list A) :
  filter f (filter g l) = filter g (filter f l).
Proof.
  induction l as [|x l IH]; simpl; [reflexivity|].
  destruct (g x) eqn:Eg, (f x) eqn:Ef; simpl; rewrite ?Eg, ?Ef, IH; reflexivity.
Qed.

Lemma filter_rev' {A : Type} (f : A -> bool) (l : list A) :
  filter f (rev l) = rev (filter f l).
Proof.
  induction l as [|x l IH]; simpl; [reflexivity|].
  rewrite filter_app, IH. simpl. destruct (f x); simpl; [reflexivity|apply app_nil_r].
Qed.

Lemma keys_below_max_filter (f : key * bytes -> bool) (t : Table) :
  keys_below_max t -> keys_below_max (filter f t).
Proof.
  unfold keys_below_max. intros H. apply Forall_forall. intros x Hx.
  apply filter_In in Hx as [Hx _]. exact (proj1 (Forall_forall _ _) H x Hx).
Qed.

(** Over keys without [char::MAX], the sentinel cuts nothing off. *)
Lemma filter_below_sentinel (P : key) (t : Table) :
  keys_below_max t ->
  filter (prefixed P) (filter (below (Leveldb.sentinel P)) t) = filter (prefixed P) t.
Proof.
  intros H. rewrite filter_comm. apply filter_all.
  apply Forall_forall. intros x Hx. apply filter_In in Hx as [Hx Hp].
  apply prefixed_below_sentinel; [exact Hp|].
  exact (proj1 (Forall_forall _ _) H x Hx).
Qed.

Lemma keys_below_max_forallb (t : list (key * bytes)) :
  forallb (fun e => below_max (fst e)) t = true -> keys_below_max t.
Proof.
  intros H. apply Forall_forall. intros x Hx.
  exact (proj1 (forallb_forall _ t) H x Hx).
Qed.

Lemma keys_below_max_put (k : key) (v : bytes) (t : Table) :
  below_max k = true -> keys_below_max t -> keys_below_max (tbl_put k v t).
Proof.
  intros Hk Ht. induction Ht as [|[k' v'] t H1 H2 IH]; simpl.
  - repeat constructor. exact Hk.
  - destruct (key_compare k k'); repeat constructor; auto.
Qed.

Lemma keys_below_max_del (k : key) (t : Table) :
  keys_below_max t -> keys_below_max (tbl_del k t).
Proof. apply del_forall. Qed.

End CommonFacts.

Module IterFacts.
Import Leveldb LeveldbFacts.

Lemma yield_prefixed_sub (P : key) (l : Table) :
  exists L, (forall e, In e L -> In e l /\ prefixed P e = true)
            /\ yield_prefixed P l = map (strip P) L.
Proof.
  induction l as [|e l [L [HL Hy]]]; simpl.
  - exists []. split; [intros e []|reflexivity].
  - destruct (prefixed P e) eqn:Ep.
    + exists (e :: L). split.
      * intros x [<-|Hx]; [auto|]. destruct (HL x Hx); auto.
      * rewrite Hy. reflexivity.
    + exists []. split; [intros x []|reflexivity].
Qed.

Lemma In_skipn' {A : Type} (i : nat) (l : list A) (x : A) : In x (skipn i l) -> In x l.
Proof. intros H. rewrite <- (firstn_skipn i l). apply in_or_app. auto. Qed.

Lemma In_firstn' {A : Type} (i : nat) (l : list A) (x : A) : In x (firstn i l) -> In x l.
Proof. intros H. rewrite <- (firstn_skipn i l). apply in_or_app. auto. Qed.

Lemma In_view (db : Database) (e : key * bytes) : In e (view db) -> In e (entries db).
Proof. unfold view. destruct (fault db); [intros Hi; apply filter_In in Hi; apply Hi|auto]. Qed.

(** Whatever the store holds, LevelDB yields stored entries that have the
    prefix, each with the prefix removed by [replace]. *)
Lemma iter_stripped (c : LeveldbCollection) (rv : bool) (P : key) (db : Database) :
  exists L, (forall e, In e L -> In e (entries db) /\ prefixed P e = true)
            /\ iter c rv P db = map (strip P) L.
Proof.
  destruct rv; [rewrite iter_rev_list|rewrite iter_fwd_list].
  - destruct (yield_prefixed_sub P (rev (firstn (seek_index (view db) (sentinel P)) (view db))))
      as [L [HL Hy]].
    exists L. split; [|exact Hy].
    intros e He. destruct (HL e He) as [Hi Hp]. split; [|exact Hp].
    apply In_view. apply in_rev in Hi. exact (In_firstn' _ _ _ Hi).
  - destruct (yield_prefixed_sub P (skipn (seek_index (view db) P) (view db))) as [L [HL Hy]].
    exists L. split; [|exact Hy].
    intros e He. destruct (HL e He) as [Hi Hp]. split; [|exact Hp].
    apply In_view. exact (In_skipn' _ _ _ Hi).
Qed.

End IterFacts.

Module StateFacts.

Lemma tbl_writes_sorted (ops : list Op) (t : Table) :
  tbl_sorted t -> tbl_sorted (tbl_writes ops t).
Proof.
  revert t. induction ops as [|[k|k v|k|rv p] ops IH]; intros t H; simpl; auto.
  - apply IH, tbl_put_sorted, H.
  - apply IH, tbl_del_sorted, H.
Qed.

Lemma leveldb_writes_healthy (c : Leveldb.LeveldbCollection) (ops : list Op)
    (db : Leveldb.Database) :
  Leveldb.fault db = None ->
  leveldb_writes c ops db
  = {| Leveldb.entries := tbl_writes ops (Leveldb.entries db); Leveldb.fault := None;
       Leveldb.unreadable := Leveldb.unreadable db |}.
Proof.
  revert db. induction ops as [|[k|k v|k|rv p] ops IH]; intros db H; simpl; auto.
  - destruct db as [es f u]; simpl in H; subst f; reflexivity.
  - unfold Leveldb.put. rewrite H. simpl. rewrite IH by reflexivity. reflexivity.
  - unfold Leveldb.del. rewrite H. simpl. rewrite IH by reflexivity. reflexivity.
Qed.

Lemma sqlite_writes_query (c : Sqlite.SqliteCollection) (ops : list Op)
    (w : Sqlite.World) (t : Table) :
  Sqlite.conn_poisoned c = false -> Sqlite.query_table c w = Some t ->
  Sqlite.query_table c (sqlite_writes c ops w) = Some (tbl_writes ops t).
Proof.
  intros Hp. revert w t.
  induction ops as [|[k|k v|k|rv p] ops IH]; intros w t H; simpl; auto.
  - unfold Sqlite.put. rewrite Hp, H. simpl. apply IH.
    apply SqliteFacts.query_store_same with (t := t). exact H.
  - unfold Sqlite.del. rewrite Hp, H. simpl. apply IH.
    apply SqliteFacts.query_store_same with (t := t). exact H.
Qed.

Lemma all_empty_set_db (t : Sqlite.Target) (w : Sqlite.World) :
  Forall (fun e => snd e = Sqlite.empty_db) (Sqlite.dbs w) ->
  Forall (fun e => snd e = Sqlite.empty_db) (Sqlite.dbs (Sqlite.set_db t Sqlite.empty_db w)).
Proof.
  unfold Sqlite.set_db. simpl.
  induction 1 as [|[t' d'] l Hd Hl IH]; simpl; [constructor; auto|].
  destruct (Sqlite.target_eqb t t'); constructor; auto.
Qed.

Lemma all_empty_assoc (t : Sqlite.Target) (d : Sqlite.Db) (l : list (Sqlite.Target * Sqlite.Db)) :
  Forall (fun e => snd e = Sqlite.empty_db) l -> Sqlite.assoc_db t l = Some d ->
  d = Sqlite.empty_db.
Proof.
  induction 1 as [|[t' d'] l Hd Hl IH]; simpl; [discriminate|].
  destruct (Sqlite.target_eqb t t'); [intros H; injection H as <-; exact Hd|exact IH].
Qed.

(** A collection created in a world with no database yet reads an empty
    table. *)
Lemma create_fresh (m : Sqlite.SqliteManager) (n : key) (c : Sqlite.SqliteCollection)
    (w : Sqlite.World) :
  Sqlite.create_collection m n world0 = Some (c, w) ->
  Sqlite.conn_poisoned c = false /\ Sqlite.query_table c w = Some [].
Proof.
  intros H.
  destruct (SqliteFacts.create_collection_fields _ _ _ _ _ H) as [Hp [Ht [w1 [Ho Hc]]]].
  split; [exact Hp|].
  assert (He : Forall (fun e => snd e = Sqlite.empty_db) (Sqlite.dbs w1)).
  { destruct (SqliteFacts.open_spec _ _ _ _ Ho) as [_ [[_ [_ ->]]|[_ [[-> _]|[-> _]]]]];
      repeat apply all_empty_set_db; apply Forall_nil. }
  destruct (SqliteFacts.create_table_query _ _ _ _ false Hc) as [t [x [d [_ [Ed [_ Hq]]]]]].
  rewrite (all_empty_assoc _ _ _ He Ed) in Hq. simpl in Hq.
  destruct c as [cn cp ct]; simpl in *; subst. exact Hq.
Qed.

Lemma leveldb_writes_faulty (c : Leveldb.LeveldbCollection) (ops : list Op)
    (db : Leveldb.Database) (e : string) :
  Leveldb.fault db = Some e -> leveldb_writes c ops db = db.
Proof.
  revert db. induction ops as [|[k|k v|k|rv p] ops IH]; intros db H; simpl; auto.
  - unfold Leveldb.put. rewrite H. simpl. apply IH, H.
  - unfold Leveldb.del. rewrite H. simpl. apply IH, H.
Qed.

Lemma sqlite_put_healthy (c : Sqlite.SqliteCollection) (k : key) (v : bytes)
    (w : Sqlite.World) (t : Table) :
  Sqlite.conn_poisoned c = false -> Sqlite.query_table c w = Some t ->
  fst (Sqlite.put c k v w) = Ok tt
  /\ Sqlite.query_table c (snd (Sqlite.put c k v w)) = Some (tbl_put k v t).
Proof.
  intros Hp Hq. unfold Sqlite.put. rewrite Hp, Hq. simpl. split; [reflexivity|].
  apply SqliteFacts.query_store_same with (t := t). exact Hq.
Qed.

Lemma sqlite_put_ok (c : Sqlite.SqliteCollection) (k : key) (v : bytes) (w : Sqlite.World) :
  fst (Sqlite.put c k v w) = Ok tt ->
  Sqlite.conn_poisoned c = false /\ exists t, Sqlite.query_table c w = Some t.
Proof.
  unfold Sqlite.put. destruct (Sqlite.conn_poisoned c); [discriminate|].
  destruct (Sqlite.query_table c w) as [t|]; [|discriminate]. eauto.
Qed.

Lemma sqlite_get_table (c : Sqlite.SqliteCollection) (k : key) (w : Sqlite.World) (t : Table) :
  Sqlite.conn_poisoned c = false -> Sqlite.query_table c w = Some t ->
  Sqlite.get c k w = match tbl_get k t with Some v => Ok v | None => Err EntryNotFound end.
Proof. intros Hp Hq. unfold Sqlite.get. rewrite Hp, Hq. reflexivity. Qed.

Lemma leveldb_put_ok (c : Leveldb.LeveldbCollection) (k : key) (v : bytes)
    (db : Leveldb.Database) :
  fst (Leveldb.put c k v db) = Ok tt -> Leveldb.fault db = None.
Proof. unfold Leveldb.put. destruct (Leveldb.fault db); [discriminate|reflexivity]. Qed.

Lemma rfind_go_found (s : key) (c : N) (j : nat) (acc : option nat) (i : nat) :
  rfind_go s c j acc = Some i ->
  acc = Some i \/ (j <= i /\ nth_error s (i - j) = Some c).
Proof.
  revert j acc. induction s as [|d s IH]; intros j acc H; simpl in H; [auto|].
  destruct (IH _ _ H) as [Ha|[Hj Hn]].
  - destruct (N.eqb d c) eqn:Ed; [|auto].
    injection Ha as <-. apply N.eqb_eq in Ed. subst d.
    right. split; [lia|]. rewrite Nat.sub_diag. reflexivity.
  - right. split; [lia|]. replace (i - j) with (S (i - S j)) by lia. exact Hn.
Qed.

Lemma rfind_nth (k : key) (c : N) (i : nat) :
  rfind k c = Some i -> nth_error k i = Some c.
Proof.
  unfold rfind. intros H. destruct (rfind_go_found k c O None i H) as [Ha|[_ Hn]].
  - discriminate.
  - rewrite Nat.sub_0_r in Hn. exact Hn.
Qed.

Lemma skipn_nth_error {A : Type} (l : list A) (i : nat) (x : A) :
  nth_error l i = Some x -> skipn i l = x :: skipn (S i) l.
Proof.
  revert i. induction l as [|y l IH]; intros [|i] H; simpl in *; try discriminate.
  - injection H as ->. reflexivity.
  - apply IH. exact H.
Qed.

Lemma leveldb_reached_sorted (c : Leveldb.LeveldbCollection) (ops : list Op) :
  tbl_sorted (Leveldb.entries (leveldb_writes c ops ldb_empty)).
Proof.
  rewrite leveldb_writes_healthy by reflexivity. simpl.
  apply tbl_writes_sorted. constructor.
Qed.

End StateFacts.

(* ================================================================== *)
(** * The claims *)

(** C10: LevelDB iteration, forward or reverse, with prefix [P] yields
    stored entries whose keys start with [P], each key with EVERY
    occurrence of [P] removed (Rust's [str::replace]), not only the leading
    one: iterating with prefix ["a"] over the stored key ["aa"] yields the
    key [""], and over ["aba"] the key ["b"]. *)
Theorem leveldb_iter_strips_every_occurrence :
  (forall (c : Leveldb.LeveldbCollection) (rv : bool) (P : key) (db : Leveldb.Database),
     exists L, (forall e, In e L -> In e (Leveldb.entries db) /\ prefixed P e = true)
               /\ Leveldb.iter c rv P db
                  = map (fun e => (replace (fst e) P [], snd e)) L)
  /\ (forall rv : bool,
        Leveldb.iter (ldb_coll "t") rv (str "a")
          (leveldb_writes (ldb_coll "t") [OpPut (str "aa") val_A] ldb_empty)
        = [(str "", val_A)])
  /\ (forall rv : bool,
        Leveldb.iter (ldb_coll "t") rv (str "a")
          (leveldb_writes (ldb_coll "t") [OpPut (str "aba") val_A] ldb_empty)
        = [(str "b", val_A)]).
Proof.
  split; [|split; intros []; vm_compute; reflexivity].
  intros c rv P db. exact (IterFacts.iter_stripped c rv P db).
Qed.

(** C3 (counterexample): LevelDB strips the prefix from the keys it yields,
    so forward iteration with prefix ["a"] over ["aa"], ["ab"], ["bc"]
    yields [("", A); ("b", B)], not [("aa", A); ("ab", B)]. *)
Lemma leveldb_forward_prefix_strips :
  Leveldb.iter (ldb_coll "t") false (str "a") ldb_abc = [(str "", val_A); (str "b", val_B)].
Proof. vm_compute. reflexivity. Qed.

(** C3: forward iteration yields the stored entries that have the prefix,
    in ascending key order.  SQLite yields the stored keys (cut at their
    last [char::MAX], see C7): over ["aa"], ["ab"], ["bc"] it yields the
    three entries, the two ["a"] entries, and nothing for ["z"].  LevelDB
    yields the keys with the prefix removed: the same lists with ["a"]
    giving [("", A); ("b", B)].  In general LevelDB yields
    [map (strip P) (filter (prefixed P) entries)] over its sorted entries, and
    SQLite [map sql_cut (filter (prefixed P) rows)] over its sorted rows. *)
Theorem forward_prefix_iteration :
  (Leveldb.iter (ldb_coll "t") false [] ldb_abc
     = [(str "aa", val_A); (str "ab", val_B); (str "bc", val_C)]
   /\ Leveldb.iter (ldb_coll "t") false (str "a") ldb_abc
     = [(str "", val_A); (str "b", val_B)]
   /\ Leveldb.iter (ldb_coll "t") false (str "z") ldb_abc = [])
  /\ (forall (m : Sqlite.SqliteManager) (n : key) (c : Sqlite.SqliteCollection)
        (w : Sqlite.World),
        sqlite_setup m n abc_ops world0 = Some (c, w) ->
        Sqlite.iter c false [] w
          = Some [(str "aa", val_A); (str "ab", val_B); (str "bc", val_C)]
        /\ Sqlite.iter c false (str "a") w = Some [(str "aa", val_A); (str "ab", val_B)]
        /\ Sqlite.iter c false (str "z") w = Some [])
  /\ (forall (c : Leveldb.LeveldbCollection) (P : key) (db : Leveldb.Database),
        tbl_sorted (Leveldb.entries db) ->
        Leveldb.iter c false P db = map (strip P) (filter (prefixed P) (Leveldb.view db)))
  /\ (forall (c : Sqlite.SqliteCollection) (P : key) (w : Sqlite.World) (t : Table),
        Sqlite.conn_poisoned c = false -> Sqlite.query_table c w = Some t ->
        Sqlite.iter c false P w = Some (map sql_cut (filter (prefixed P) t)))
  /\ (forall (c : Leveldb.LeveldbCollection) (ops : list Op) (db : Leveldb.Database),
        tbl_sorted (Leveldb.entries db) ->
        tbl_sorted (Leveldb.entries (leveldb_writes c ops db)))
  /\ (forall (c : Sqlite.SqliteCollection) (ops : list Op) (w : Sqlite.World) (t : Table),
        Sqlite.conn_poisoned c = false -> Sqlite.query_table c w = Some t -> tbl_sorted t ->
        exists t', Sqlite.query_table c (sqlite_writes c ops w) = Some t' /\ tbl_sorted t').
Proof.
  split; [vm_compute; repeat split|split; [|split; [|split; [|split]]]].
  - intros m n c w. unfold sqlite_setup.
    destruct (Sqlite.create_collection m n world0) as [[c1 w1]|] eqn:E; [|discriminate].
    intros H; injection H as <- <-.
    destruct (StateFacts.create_fresh m n c1 w1 E) as [Hp Hq].
    pose proof (StateFacts.sqlite_writes_query c1 abc_ops w1 [] Hp Hq) as Hw.
    rewrite !(SqliteFacts.iter_table c1 false _ _ _ Hp Hw).
    vm_compute. repeat split.
  - intros c P db Hs. apply LeveldbFacts.iter_fwd_sorted, LeveldbFacts.view_sorted, Hs.
  - intros c P w t Hp Hq. exact (SqliteFacts.iter_table c false P w t Hp Hq).
  - intros c ops db Hs. destruct (Leveldb.fault db) eqn:Ef.
    + rewrite (StateFacts.leveldb_writes_faulty c ops db s Ef). exact Hs.
    + rewrite StateFacts.leveldb_writes_healthy by exact Ef.
      apply StateFacts.tbl_writes_sorted, Hs.
  - intros c ops w t Hp Hq Hs. exists (tbl_writes ops t). split.
    + apply StateFacts.sqlite_writes_query; assumption.
    + apply StateFacts.tbl_writes_sorted, Hs.
Qed.

Lemma forward_prefix_iteration_witness :
  exists c w, sqlite_setup Sqlite.default (str "t") abc_ops world0 = Some (c, w)
    /\ Sqlite.iter c false (str "a") w = Some [(str "aa", val_A); (str "ab", val_B)]
    /\ Leveldb.iter (ldb_coll "t") false (str "a") ldb_abc
       = map (strip (str "a")) (filter (prefixed (str "a")) (Leveldb.view ldb_abc)).
Proof.
  destruct (sqlite_setup Sqlite.default (str "t") abc_ops world0) as [[c w]|] eqn:E.
  - exists c, w. split; [reflexivity|split].
    + exact (proj1 (proj2 (proj1 (proj2 forward_prefix_iteration) _ _ c w E))).
    + apply (proj1 (proj2 (proj2 forward_prefix_iteration))).
      apply StateFacts.leveldb_reached_sorted.
  - vm_compute in E. discriminate.
Defined.

(** C4 (counterexample): a stored key that sorts above the sentinel
    [P ++ [char::MAX; char::MAX]] is never reached by reverse iteration:
    over ["a"] and [char::MAX char::MAX "a"], [iterate(true, "")] yields only
    [("a", A)], though both keys start with [""]. *)
Lemma reverse_skips_keys_above_sentinel :
  Leveldb.iter (ldb_coll "t") true []
    (leveldb_writes (ldb_coll "t")
       [OpPut (str "a") val_A; OpPut [char_MAX; char_MAX; 97%N] val_B] ldb_empty)
  = [(str "a", val_A)].
Proof. vm_compute. reflexivity. Qed.

(** C4: LevelDB reverse iteration with prefix [P] yields, in descending key
    order and with the prefix removed, the stored entries that have the
    prefix AND sort below the sentinel [P ++ [char::MAX; char::MAX]]: neither
    the sentinel nor any stored key above it is yielded.  Every key with the
    prefix whose characters are below [char::MAX] is below the sentinel, so
    over such keys all entries with the prefix are yielded.  Over ["aa"],
    ["ab"], ["bc"], [iterate(true, "")] yields [("bc", C); ("ab", B); ("aa", A)]. *)
Theorem reverse_iteration_below_sentinel :
  (forall (c : Leveldb.LeveldbCollection) (P : key) (db : Leveldb.Database),
     tbl_sorted (Leveldb.entries db) ->
     Leveldb.iter c true P db
     = map (strip P)
         (rev (filter (prefixed P) (filter (below (Leveldb.sentinel P)) (Leveldb.view db)))))
  /\ (forall (c : Leveldb.LeveldbCollection) (P : key) (db : Leveldb.Database),
        tbl_sorted (Leveldb.entries db) -> keys_below_max (Leveldb.entries db) ->
        Leveldb.iter c true P db = map (strip P) (rev (filter (prefixed P) (Leveldb.view db))))
  /\ Leveldb.iter (ldb_coll "t") true [] ldb_abc
     = [(str "bc", val_C); (str "ab", val_B); (str "aa", val_A)].
Proof.
  split; [|split; [|vm_compute; reflexivity]].
  - intros c P db Hs. apply LeveldbFacts.iter_rev_sorted, LeveldbFacts.view_sorted, Hs.
  - intros c P db Hs Hb.
    rewrite LeveldbFacts.iter_rev_sorted by (apply LeveldbFacts.view_sorted, Hs).
    rewrite CommonFacts.filter_below_sentinel; [reflexivity|].
    unfold Leveldb.view.
    destruct (Leveldb.fault db); [apply CommonFacts.keys_below_max_filter, Hb|exact Hb].
Qed.

Lemma reverse_iteration_below_sentinel_witness :
  Leveldb.iter (ldb_coll "t") true (str "a") ldb_abc
  = map (strip (str "a")) (rev (filter (prefixed (str "a")) (Leveldb.view ldb_abc))).
Proof.
  apply (proj1 (proj2 reverse_iteration_below_sentinel)).
  - apply StateFacts.leveldb_reached_sorted.
  - apply CommonFacts.keys_below_max_forallb. vm_compute. reflexivity.
Defined.

(** C5: in both backends a successful [put(K, V)] followed by [get(K)]
    returns [V], and after [put(K, V1); put(K, V2)] [get(K)] returns [V2]. *)
Theorem put_get_last_write_wins :
  (forall (c : Leveldb.LeveldbCollection) (k : key) (v : bytes) (db : Leveldb.Database),
     fst (Leveldb.put c k v db) = Ok tt ->
     Leveldb.get c k (snd (Leveldb.put c k v db)) = Ok v)
  /\ (forall (c : Leveldb.LeveldbCollection) (k : key) (v1 v2 : bytes) (db : Leveldb.Database),
        fst (Leveldb.put c k v1 db) = Ok tt ->
        Leveldb.get c k (snd (Leveldb.put c k v2 (snd (Leveldb.put c k v1 db)))) = Ok v2)
  /\ (forall (c : Sqlite.SqliteCollection) (k : key) (v : bytes) (w : Sqlite.World),
        fst (Sqlite.put c k v w) = Ok tt ->
        Sqlite.get c k (snd (Sqlite.put c k v w)) = Ok v)
  /\ (forall (c : Sqlite.SqliteCollection) (k : key) (v1 v2 : bytes) (w : Sqlite.World),
        fst (Sqlite.put c k v1 w) = Ok tt ->
        Sqlite.get c k (snd (Sqlite.put c k v2 (snd (Sqlite.put c k v1 w)))) = Ok v2).
Proof.
  assert (Hl : forall c k v db, fst (Leveldb.put c k v db) = Ok tt ->
                 Leveldb.get c k (snd (Leveldb.put c k v db)) = Ok v).
  { intros c k v db H. pose proof (StateFacts.leveldb_put_ok c k v db H) as Hf.
    unfold Leveldb.get, Leveldb.put. rewrite Hf. simpl.
    unfold Leveldb.generate_key. rewrite tbl_get_put_same. reflexivity. }
  assert (Hs : forall c k v w t, Sqlite.conn_poisoned c = false ->
                 Sqlite.query_table c w = Some t ->
                 Sqlite.get c k (snd (Sqlite.put c k v w)) = Ok v).
  { intros c k v w t Hp Hq.
    destruct (StateFacts.sqlite_put_healthy c k v w t Hp Hq) as [_ Hq'].
    rewrite (StateFacts.sqlite_get_table c k _ _ Hp Hq'), tbl_get_put_same. reflexivity. }
  split; [exact Hl|split; [|split]].
  - intros c k v1 v2 db H. apply Hl.
    pose proof (StateFacts.leveldb_put_ok c k v1 db H) as Hf.
    unfold Leveldb.put at 2. rewrite Hf. reflexivity.
  - intros c k v w H. destruct (StateFacts.sqlite_put_ok c k v w H) as [Hp [t Hq]].
    exact (Hs c k v w t Hp Hq).
  - intros c k v1 v2 w H. destruct (StateFacts.sqlite_put_ok c k v1 w H) as [Hp [t Hq]].
    destruct (StateFacts.sqlite_put_healthy c k v1 w t Hp Hq) as [_ Hq'].
    exact (Hs c k v2 _ _ Hp Hq').
Qed.

Lemma put_get_last_write_wins_witness :
  exists c w, sqlite_setup Sqlite.default (str "t") [] world0 = Some (c, w)
    /\ fst (Sqlite.put c (str "k") val_A w) = Ok tt
    /\ Sqlite.get c (str "k") (snd (Sqlite.put c (str "k") val_B
                                      (snd (Sqlite.put c (str "k") val_A w)))) = Ok val_B
    /\ fst (Leveldb.put (ldb_coll "t") (str "k") val_A ldb_empty) = Ok tt
    /\ Leveldb.get (ldb_coll "t") (str "k")
         (snd (Leveldb.put (ldb_coll "t") (str "k") val_B
                 (snd (Leveldb.put (ldb_coll "t") (str "k") val_A ldb_empty)))) = Ok val_B.
Proof.
  destruct (sqlite_setup Sqlite.default (str "t") [] world0) as [[c w]|] eqn:E.
  - unfold sqlite_setup in E.
    destruct (Sqlite.create_collection Sqlite.default (str "t") world0) as [[c1 w1]|] eqn:Ec;
      [|discriminate].
    injection E as <- <-.
    destruct (StateFacts.create_fresh _ _ _ _ Ec) as [Hp Hq].
    assert (Hok : fst (Sqlite.put c1 (str "k") val_A w1) = Ok tt)
      by exact (proj1 (StateFacts.sqlite_put_healthy c1 (str "k") val_A w1 [] Hp Hq)).
    exists c1, w1. split; [reflexivity|split; [exact Hok|split; [|split]]].
    + exact (proj2 (proj2 (proj2 put_get_last_write_wins)) c1 (str "k") val_A val_B w1 Hok).
    + reflexivity.
    + apply (proj1 (proj2 put_get_last_write_wins)). reflexivity.
  - vm_compute in E. discriminate.
Defined.

(** C6: [get] fails only with [EntryNotFound], and with it both when the
    key is absent and when the store fails to read: in LevelDB for every
    store; in SQLite for every collection a manager creates (its mutex is
    never poisoned: no code panics while holding it). *)
Theorem get_error_collapse :
  (forall (c : Leveldb.LeveldbCollection) (k : key) (db : Leveldb.Database) (e : DbError),
     Leveldb.get c k db = Err e -> e = EntryNotFound)
  /\ (forall (c : Leveldb.LeveldbCollection) (k : key) (db : Leveldb.Database) (msg : string),
        Leveldb.fault db = Some msg -> Leveldb.get c k db = Err EntryNotFound)
  /\ (forall (c : Leveldb.LeveldbCollection) (k : key) (db : Leveldb.Database),
        tbl_get k (Leveldb.entries db) = None -> Leveldb.get c k db = Err EntryNotFound)
  /\ (forall (m : Sqlite.SqliteManager) (n : key) (w0 : Sqlite.World)
        (c : Sqlite.SqliteCollection) (w1 : Sqlite.World),
        Sqlite.create_collection m n w0 = Some (c, w1) ->
        (forall (w : Sqlite.World) (k : key) (e : DbError),
           Sqlite.get c k w = Err e -> e = EntryNotFound)
        /\ (forall (w : Sqlite.World) (k : key),
              Sqlite.query_table c w = None -> Sqlite.get c k w = Err EntryNotFound)
        /\ (forall (w : Sqlite.World) (k : key) (t : Table),
              Sqlite.query_table c w = Some t -> tbl_get k t = None ->
              Sqlite.get c k w = Err EntryNotFound)).
Proof.
  split; [|split; [|split]].
  - intros c k db e. unfold Leveldb.get.
    destruct (Leveldb.fault db); [congruence|].
    destruct (tbl_get _ _); congruence.
  - intros c k db msg H. unfold Leveldb.get. rewrite H. reflexivity.
  - intros c k db H. unfold Leveldb.get. destruct (Leveldb.fault db); [reflexivity|].
    unfold Leveldb.generate_key. rewrite H. reflexivity.
  - intros m n w0 c w1 Hc.
    destruct (SqliteFacts.create_collection_fields m n w0 c w1 Hc) as [Hp _].
    split; [|split].
    + intros w k e. unfold Sqlite.get. rewrite Hp.
      destruct (Sqlite.query_table c w); [destruct (tbl_get k t)|]; congruence.
    + intros w k H. unfold Sqlite.get. rewrite Hp, H. reflexivity.
    + intros w k t Hq Ht. rewrite (StateFacts.sqlite_get_table c k w t Hp Hq), Ht.
      reflexivity.
Qed.

Lemma get_error_collapse_witness :
  Leveldb.get (ldb_coll "t") (str "aa")
    {| Leveldb.entries := [(str "aa", val_A)]; Leveldb.fault := Some "IO error"%string;
       Leveldb.unreadable := fun _ => false |}
  = Err EntryNotFound
  /\ exists c w, Sqlite.create_collection Sqlite.default (str "t") world0 = Some (c, w)
       /\ Sqlite.get c (str "aa") w = Err EntryNotFound.
Proof.
  split; [apply (proj1 (proj2 get_error_collapse)) with (msg := "IO error"%string);
          reflexivity|].
  destruct (Sqlite.create_collection Sqlite.default (str "t") world0) as [[c w]|] eqn:E.
  - exists c, w. split; [reflexivity|].
    destruct (StateFacts.create_fresh _ _ _ _ E) as [_ Hq].
    apply (proj2 (proj2 (proj2 (proj2 (proj2 get_error_collapse)) _ _ _ c w E)) w _ [] Hq).
    reflexivity.
  - vm_compute in E. discriminate.
Defined.

(** C7: SQLite cuts a yielded key at the index of its LAST [char::MAX] and
    keeps that character: the yielded key is [char::MAX] followed by the part
    after it, not only the part after it.  A key without the separator is
    yielded whole.  So stored key ["a" ++ char::MAX ++ "1"] is yielded as
    [char::MAX ++ "1"], where the spec says ["1"]. *)
Theorem sqlite_cut_keeps_separator :
  (forall (k : key) (v : bytes) (i : nat),
     rfind k char_MAX = Some i -> fst (sql_cut (k, v)) = char_MAX :: skipn (S i) k)
  /\ (forall (k : key) (v : bytes), rfind k char_MAX = None -> sql_cut (k, v) = (k, v))
  /\ (forall (c : Sqlite.SqliteCollection) (w : Sqlite.World),
        sqlite_setup Sqlite.default (str "t") [OpPut sep_key val_A] world0 = Some (c, w) ->
        Sqlite.iter c false [] w = Some [([char_MAX; 49%N], val_A)]).
Proof.
  split; [|split].
  - intros k v i H. unfold sql_cut, Sqlite.position_to_cut. simpl. rewrite H.
    apply StateFacts.skipn_nth_error, StateFacts.rfind_nth, H.
  - intros k v H. unfold sql_cut, Sqlite.position_to_cut. simpl. rewrite H. reflexivity.
  - intros c w. vm_compute. intros H. injection H as <- <-. vm_compute. reflexivity.
Qed.

Lemma sqlite_cut_keeps_separator_witness :
  fst (sql_cut (sep_key, val_A)) = char_MAX :: skipn 2 sep_key.
Proof. apply (proj1 sqlite_cut_keeps_separator). vm_compute. reflexivity. Defined.

(** ** Connections of one manager *)

Module ConnFacts.
Import Sqlite.

Lemma reach_trans (a b c : World) : reach a b -> reach b c -> reach a c.
Proof.
  induction 1 as [w|c' k v w w' _ IH|c' k w w' _ IH|m n w c' w1 w' Hc _ IH]; intros H.
  - exact H.
  - apply (reach_put c' k v), IH, H.
  - apply (reach_del c' k), IH, H.
  - apply (reach_create m n w c' w1), IH, H; exact Hc.
Qed.

Lemma reach_put_end (w0 w : World) (c : SqliteCollection) (k : key) (v : bytes) :
  reach w0 w -> reach w0 (snd (put c k v w)).
Proof. intros H. apply (reach_trans _ _ _ H). apply (reach_put c k v), reach_refl. Qed.

Lemma target_eqb_sym (a b : Target) : target_eqb a b = target_eqb b a.
Proof.
  destruct (target_eqb b a) eqn:E.
  - apply SqliteFacts.target_eqb_true in E. subst. apply SqliteFacts.target_eqb_refl.
  - destruct (target_eqb a b) eqn:E'; [|reflexivity].
    apply SqliteFacts.target_eqb_true in E'. subst.
    rewrite SqliteFacts.target_eqb_refl in E. discriminate.
Qed.

Lemma sql_apart_sym (w : World) (c d : SqliteCollection) : sql_apart w c d = sql_apart w d c.
Proof.
  unfold sql_apart.
  destruct (resolve (conn c) (table c) w) as [[t1 x1]|];
    destruct (resolve (conn d) (table d) w) as [[t2 x2]|]; try reflexivity.
  rewrite target_eqb_sym, key_eqb_sym. reflexivity.
Qed.

Lemma open_kind_uri (p : key) (w w' : World) :
  uri_db w' = uri_db w -> open_kind p w' = open_kind p w.
Proof. intros H. unfold open_kind. rewrite H. reflexivity. Qed.

Lemma open_main_kind (p q : key) (w w1 : World) (cn : Conn) :
  open p w = Some (cn, w1) ->
  (open_kind p w = OpenPrivate -> main_db cn = MemDb (conn_id cn))
  /\ (open_kind p w = OpenFile q -> main_db cn = FileDb q)
  /\ (open_kind p w = OpenShared q -> main_db cn = SharedMemDb q).
Proof.
  intros Ho.
  destruct (SqliteFacts.open_spec _ _ _ _ Ho)
    as [_ [[Hk [Hm _]]|[[[q' [Hk Hm]]|[q' [Hk Hm]]] _]]];
    (split; [|split]); intros H; rewrite H in Hk; try discriminate;
    try (injection Hk as ->); exact Hm.
Qed.

(** A created collection's name denotes a table. *)
Lemma create_resolves (m : SqliteManager) (n : key) (w w' : World) (c : SqliteCollection) :
  create_collection m n w = Some (c, w') -> table_ref (name_ref w) n <> None.
Proof.
  intros H. destruct (SqliteFacts.create_collection_fields _ _ _ _ _ H) as [_ [_ [w1 [Ho Hc]]]].
  destruct (SqliteFacts.open_readings _ _ _ _ Ho) as [_ [N1 _]].
  unfold create_table, resolve in Hc. rewrite N1 in Hc.
  destruct (table_ref (name_ref w) n); [discriminate|simpl in Hc; discriminate].
Qed.

(** Two collections a manager creates, the second any number of steps
    after the first, are apart as long as the program runs, when their
    names denote different tables or every connection of the manager has a
    private database. *)
Lemma created_apart (m : SqliteManager) (n1 n2 : key) (w0 w1 w2 w3 : World)
    (c d : SqliteCollection) :
  create_collection m n1 w0 = Some (c, w1) -> reach w1 w2 ->
  create_collection m n2 w2 = Some (d, w3) ->
  table_ref (name_ref w0) n1 <> table_ref (name_ref w0) n2
  \/ open_kind (path m) w0 = OpenPrivate ->
  forall w, reach w3 w -> sql_apart w c d = true.
Proof.
  intros Hc Hr Hd Hn w Hw.
  destruct (SqliteFacts.create_collection_fields _ _ _ _ _ Hc) as [_ [Htc [wa [Hoa _]]]].
  destruct (SqliteFacts.create_collection_fields _ _ _ _ _ Hd) as [_ [Htd [wb [Hob _]]]].
  destruct (SqliteFacts.create_readings _ _ _ _ _ Hc) as [Ic [Fc [Nc Uc]]].
  destruct (SqliteFacts.create_readings _ _ _ _ _ Hd) as [Id [Fd [Nd Ud]]].
  destruct (SqliteFacts.reach_readings _ _ Hr) as [Fr [Nr Ur]].
  destruct (SqliteFacts.reach_readings _ _ Hw) as [Fw [Nw Uw]].
  assert (Hid : conn_id (conn c) <> conn_id (conn d)) by lia.
  assert (Hnr : name_ref w = name_ref w0) by congruence.
  assert (Tt : target_eqb (TempDb (conn_id (conn c))) (TempDb (conn_id (conn d))) = false)
    by (simpl; apply Nat.eqb_neq; exact Hid).
  assert (Mt : forall i, target_eqb (main_db (conn c)) (TempDb i) = false)
    by (intros i; apply (SqliteFacts.open_main_not_temp _ _ _ _ i Hoa)).
  assert (Tm : forall i, target_eqb (TempDb i) (main_db (conn d)) = false)
    by (intros i; rewrite target_eqb_sym; apply (SqliteFacts.open_main_not_temp _ _ _ _ i Hob)).
  unfold sql_apart, resolve. rewrite Hnr, Htc, Htd.
  destruct (table_ref (name_ref w0) n1) as [[s1 x1]|] eqn:E1; [|reflexivity].
  destruct (table_ref (name_ref w0) n2) as [[s2 x2]|] eqn:E2; [|destruct s1; reflexivity].
  destruct s1, s2; rewrite ?Tt, ?Mt, ?Tm; try reflexivity.
  destruct Hn as [Hn|Hp].
  - destruct (key_eqb x1 x2) eqn:Ex; [|rewrite andb_false_r; reflexivity].
    apply key_eqb_true in Ex. subst x2. exfalso. apply Hn. reflexivity.
  - assert (Hp2 : open_kind (path m) w2 = OpenPrivate)
      by (rewrite (open_kind_uri _ w0 w2); [exact Hp|congruence]).
    rewrite (proj1 (open_main_kind _ [] _ _ _ Hoa) Hp).
    rewrite (proj1 (open_main_kind _ [] _ _ _ Hob) Hp2).
    simpl. apply Nat.eqb_neq in Hid. rewrite Hid. reflexivity.
Qed.

(** Two collections of one name, from a manager on a database file or a
    shared in-memory database, read the same table as long as the program
    runs, when the name denotes a table of the main database. *)
Lemma created_same (m : SqliteManager) (n x : key) (w0 w1 w2 w3 : World)
    (c d : SqliteCollection) :
  (exists q, open_kind (path m) w0 = OpenFile q)
  \/ (exists q, open_kind (path m) w0 = OpenShared q) ->
  table_ref (name_ref w0) n = Some (Main, x) ->
  create_collection m n w0 = Some (c, w1) -> reach w1 w2 ->
  create_collection m n w2 = Some (d, w3) ->
  forall w, reach w3 w -> query_table d w = query_table c w.
Proof.
  intros Hk Hx Hc Hr Hd w Hw.
  destruct (SqliteFacts.create_collection_fields _ _ _ _ _ Hc) as [_ [Htc [wa [Hoa _]]]].
  destruct (SqliteFacts.create_collection_fields _ _ _ _ _ Hd) as [_ [Htd [wb [Hob _]]]].
  destruct (SqliteFacts.create_readings _ _ _ _ _ Hc) as [_ [_ [Nc Uc]]].
  destruct (SqliteFacts.create_readings _ _ _ _ _ Hd) as [_ [_ [Nd Ud]]].
  destruct (SqliteFacts.reach_readings _ _ Hr) as [_ [Nr Ur]].
  destruct (SqliteFacts.reach_readings _ _ Hw) as [_ [Nw Uw]].
  assert (Hnr : name_ref w = name_ref w0) by congruence.
  assert (Hk2 : open_kind (path m) w2 = open_kind (path m) w0)
    by (apply open_kind_uri; congruence).
  assert (Hm : main_db (conn d) = main_db (conn c)).
  { destruct Hk as [[q Hq]|[q Hq]].
    - rewrite (proj1 (proj2 (open_main_kind _ q _ _ _ Hoa)) Hq).
      rewrite Hq in Hk2. exact (proj1 (proj2 (open_main_kind _ q _ _ _ Hob)) Hk2).
    - rewrite (proj2 (proj2 (open_main_kind _ q _ _ _ Hoa)) Hq).
      rewrite Hq in Hk2. exact (proj2 (proj2 (open_main_kind _ q _ _ _ Hob)) Hk2). }
  unfold query_table, resolve. rewrite Hnr, Htc, Htd, Hx, Hm. reflexivity.
Qed.

End ConnFacts.

(** C8 (counterexample): with the default manager ([":memory:"]) every
    [create_collection] opens its own private database, so a value put
    through one handle of collection [t] is not seen through a second handle
    of [t]: [get] there fails with [EntryNotFound]. *)
Lemma default_manager_handles_not_shared :
  match Sqlite.create_collection Sqlite.default (str "t") world0 with
  | Some (h1, w1) =>
      match Sqlite.create_collection Sqlite.default (str "t") w1 with
      | Some (h2, w2) =>
          fst (Sqlite.put h1 (str "k") val_A w2) = Ok tt
          /\ Sqlite.get h2 (str "k") (snd (Sqlite.put h1 (str "k") val_A w2))
             = Err EntryNotFound
      | None => False
      end
  | None => False
  end.
Proof. vm_compute. split; reflexivity. Qed.

(** C8: every [create_collection] opens a new connection, and what the
    connections of one manager share depends on its path.  A path with no
    NUL character that is neither [":memory:"] nor [""] nor a [file:] URI
    names a database file; [":memory:"] and [""] give each connection a
    private database.  When the path opens a database file or a shared
    in-memory database, two handles of one collection name (created at any
    two points of a run) read the same table for the rest of the run, so a
    put through one is seen through the other, as long as the name denotes
    a table of the main database (a [temp.] name denotes a table of the
    handle's own connection).  When the path gives private databases, writes
    through one handle never change what another reads, whatever the
    names. *)
Theorem sqlite_handles_sharing :
  (forall (p : key) (w : Sqlite.World),
     existsb (N.eqb 0) p = false -> key_eqb p (str ":memory:") = false -> p <> [] ->
     starts_with p (str "file:") = false -> Sqlite.open_kind p w = Sqlite.OpenFile p)
  /\ (forall w : Sqlite.World,
        Sqlite.open_kind (str ":memory:") w = Sqlite.OpenPrivate
        /\ Sqlite.open_kind [] w = Sqlite.OpenPrivate)
  /\ (forall (m : Sqlite.SqliteManager) (n x : key) (w0 w1 w2 w3 : Sqlite.World)
        (h1 h2 : Sqlite.SqliteCollection),
        (exists q, Sqlite.open_kind (Sqlite.path m) w0 = Sqlite.OpenFile q)
        \/ (exists q, Sqlite.open_kind (Sqlite.path m) w0 = Sqlite.OpenShared q) ->
        Sqlite.table_ref (Sqlite.name_ref w0) n = Some (Sqlite.Main, x) ->
        Sqlite.create_collection m n w0 = Some (h1, w1) -> Sqlite.reach w1 w2 ->
        Sqlite.create_collection m n w2 = Some (h2, w3) ->
        forall w : Sqlite.World, Sqlite.reach w3 w ->
          Sqlite.query_table h2 w = Sqlite.query_table h1 w
          /\ forall (k : key) (v : bytes),
               fst (Sqlite.put h1 k v w) = Ok tt ->
               Sqlite.get h2 k (snd (Sqlite.put h1 k v w)) = Ok v)
  /\ (forall (m : Sqlite.SqliteManager) (n1 n2 : key) (w0 w1 w2 w3 : Sqlite.World)
        (h1 h2 : Sqlite.SqliteCollection),
        Sqlite.open_kind (Sqlite.path m) w0 = Sqlite.OpenPrivate ->
        Sqlite.create_collection m n1 w0 = Some (h1, w1) -> Sqlite.reach w1 w2 ->
        Sqlite.create_collection m n2 w2 = Some (h2, w3) ->
        forall (ops : list Op) (w : Sqlite.World), Sqlite.reach w3 w ->
          Sqlite.query_table h2 (sqlite_writes h1 ops w) = Sqlite.query_table h2 w
          /\ Sqlite.query_table h1 (sqlite_writes h2 ops w) = Sqlite.query_table h1 w).
Proof.
  split; [|split; [|split]].
  - intros p w H0 Hm He Hf. unfold Sqlite.open_kind. rewrite H0, Hm, Hf. simpl.
    destruct p as [|a p]; [contradiction|reflexivity].
  - intros w. split; reflexivity.
  - intros m n x w0 w1 w2 w3 h1 h2 Hk Hx H1 Hr H2 w Hw.
    pose proof (ConnFacts.created_same m n x w0 w1 w2 w3 h1 h2 Hk Hx H1 Hr H2) as Hs.
    split; [exact (Hs w Hw)|]. intros k v H.
    destruct (StateFacts.sqlite_put_ok h1 k v w H) as [Hp [t Hq]].
    destruct (StateFacts.sqlite_put_healthy h1 k v w t Hp Hq) as [_ Hq'].
    rewrite <- (Hs _ (ConnFacts.reach_put_end _ _ h1 k v Hw)) in Hq'.
    destruct (SqliteFacts.create_collection_fields _ _ _ _ _ H2) as [Hp2 _].
    rewrite (StateFacts.sqlite_get_table h2 k _ _ Hp2 Hq'), tbl_get_put_same. reflexivity.
  - intros m n1 n2 w0 w1 w2 w3 h1 h2 Hk H1 Hr H2 ops w Hw.
    pose proof (ConnFacts.created_apart m n1 n2 w0 w1 w2 w3 h1 h2 H1 Hr H2 (or_intror Hk) w Hw)
      as Ha.
    split; apply SqliteFacts.writes_apart; [exact Ha|].
    rewrite ConnFacts.sql_apart_sym. exact Ha.
Qed.

Lemma sqlite_handles_sharing_witness :
  Sqlite.open_kind (str "node.db") world0 = Sqlite.OpenFile (str "node.db")
  /\ match Sqlite.create_collection file_manager (str "t") world0 with
     | Some (h1, w1) =>
         match Sqlite.create_collection file_manager (str "t") w1 with
         | Some (h2, w2) =>
             Sqlite.get h2 (str "k") (snd (Sqlite.put h1 (str "k") val_A w2)) = Ok val_A
         | None => False
         end
     | None => False
     end
  /\ match Sqlite.create_collection Sqlite.default (str "t") world0 with
     | Some (h1, w1) =>
         match Sqlite.create_collection Sqlite.default (str "t") w1 with
         | Some (h2, w2) =>
             Sqlite.query_table h2 (sqlite_writes h1 [OpPut (str "k") val_A] w2)
             = Sqlite.query_table h2 w2
         | None => False
         end
     | None => False
     end.
Proof.
  split; [|split].
  - apply (proj1 sqlite_handles_sharing); try reflexivity. discriminate.
  - destruct (Sqlite.create_collection file_manager (str "t") world0) as [[h1 w1]|] eqn:E1;
      [|vm_compute in E1; discriminate].
    pose proof E1 as E. vm_compute in E. injection E as <- <-.
    match goal with |- match ?x with _ => _ end => destruct x as [[h2 w2]|] eqn:E2 end;
      [|vm_compute in E2; discriminate].
    pose proof E2 as E'. vm_compute in E'. injection E' as <- <-.
    apply (proj2 (proj1 (proj2 (proj2 sqlite_handles_sharing)) file_manager (str "t") (str "t")
             world0 _ _ _ _ _ (or_introl (ex_intro _ (str "node.db") eq_refl)) eq_refl E1
             (Sqlite.reach_refl _) E2 _ (Sqlite.reach_refl _))).
    vm_compute. reflexivity.
  - destruct (Sqlite.create_collection Sqlite.default (str "t") world0) as [[h1 w1]|] eqn:E1;
      [|vm_compute in E1; discriminate].
    pose proof E1 as E. vm_compute in E. injection E as <- <-.
    match goal with |- match ?x with _ => _ end => destruct x as [[h2 w2]|] eqn:E2 end;
      [|vm_compute in E2; discriminate].
    exact (proj1 (proj2 (proj2 (proj2 sqlite_handles_sharing)) Sqlite.default (str "t") (str "t")
             world0 _ _ w2 _ h2 eq_refl E1 (Sqlite.reach_refl _) E2
             [OpPut (str "k") val_A] w2 (Sqlite.reach_refl _))).
Defined.

(** C9 (counterexample): a failure while producing the result set of an
    SQLite iteration is swallowed: on a database whose statements fail,
    [make_iter] returns an error, yet [iter] yields the empty sequence,
    exactly what a healthy empty table yields. *)
Lemma iterate_failure_looks_empty :
  Sqlite.make_iter file_coll false [] faulty_world = Some Sqlite.SqlErr
  /\ Sqlite.iter file_coll false [] faulty_world = Some []
  /\ Sqlite.iter file_coll false [] empty_world = Some [].
Proof. vm_compute. repeat split. Qed.

(** C9: [get], [put] and [del] report a store failure per call as a typed
    error ([EntryNotFound] for [get], [CustomError] with the call's message
    for [put] and [del]), in both backends; SQLite's [iterate] has no error
    channel: when the statement fails it yields the empty sequence. *)
Theorem per_call_errors_iterate_swallows :
  (forall (c : Leveldb.LeveldbCollection) (k : key) (v : bytes) (db : Leveldb.Database)
     (msg : string),
     Leveldb.fault db = Some msg ->
     fst (Leveldb.put c k v db) = Err (CustomError ("Error putting data: " ++ msg))
     /\ fst (Leveldb.del c k db) = Err (CustomError ("Error deletting data: " ++ msg))
     /\ Leveldb.get c k db = Err EntryNotFound)
  /\ (forall (c : Sqlite.SqliteCollection) (k : key) (v : bytes) (rv : bool) (P : key)
        (w : Sqlite.World),
        Sqlite.conn_poisoned c = false -> Sqlite.query_table c w = None ->
        fst (Sqlite.put c k v w) = Err (CustomError "insert error")
        /\ fst (Sqlite.del c k w) = Err (CustomError "delete error")
        /\ Sqlite.get c k w = Err EntryNotFound
        /\ Sqlite.make_iter c rv P w = Some Sqlite.SqlErr
        /\ Sqlite.iter c rv P w = Some []).
Proof.
  split.
  - intros c k v db msg H.
    unfold Leveldb.put, Leveldb.del, Leveldb.get. rewrite H. repeat split.
  - intros c k v rv P w Hp Hq.
    unfold Sqlite.put, Sqlite.del, Sqlite.get, Sqlite.iter, Sqlite.make_iter.
    rewrite Hp, Hq. repeat split.
Qed.

Lemma per_call_errors_iterate_swallows_witness :
  fst (Leveldb.put (ldb_coll "t") (str "k") val_A ldb_faulty)
  = Err (CustomError ("Error putting data: " ++ "IO error"))
  /\ Sqlite.iter file_coll true [] faulty_world = Some [].
Proof.
  split.
  - exact (proj1 (proj1 per_call_errors_iterate_swallows
             (ldb_coll "t") (str "k") val_A ldb_faulty "IO error"%string
             ltac:(reflexivity))).
  - exact (proj2 (proj2 (proj2 (proj2 (proj2 per_call_errors_iterate_swallows
             file_coll (str "k") val_A true [] faulty_world ltac:(reflexivity)
             ltac:(reflexivity)))))).
Defined.

Module EquivFacts.

Lemma leveldb_put_eq (c : Leveldb.LeveldbCollection) (k : key) (v : bytes)
    (db : Leveldb.Database) :
  Leveldb.fault db = None ->
  Leveldb.put c k v db
  = (Ok tt, {| Leveldb.entries := tbl_put k v (Leveldb.entries db); Leveldb.fault := None;
       Leveldb.unreadable := Leveldb.unreadable db |}).
Proof. intros H. unfold Leveldb.put. rewrite H. reflexivity. Qed.

Lemma leveldb_del_eq (c : Leveldb.LeveldbCollection) (k : key) (db : Leveldb.Database) :
  Leveldb.fault db = None ->
  Leveldb.del c k db
  = (Ok tt, {| Leveldb.entries := tbl_del k (Leveldb.entries db); Leveldb.fault := None;
       Leveldb.unreadable := Leveldb.unreadable db |}).
Proof. intros H. unfold Leveldb.del. rewrite H. reflexivity. Qed.

Lemma sqlite_put_eq (c : Sqlite.SqliteCollection) (k : key) (v : bytes) (w : Sqlite.World)
    (t : Table) :
  Sqlite.conn_poisoned c = false -> Sqlite.query_table c w = Some t ->
  Sqlite.put c k v w = (Ok tt, Sqlite.store_table c (tbl_put k v t) w).
Proof. intros Hp Hq. unfold Sqlite.put. rewrite Hp, Hq. reflexivity. Qed.

Lemma sqlite_del_eq (c : Sqlite.SqliteCollection) (k : key) (w : Sqlite.World) (t : Table) :
  Sqlite.conn_poisoned c = false -> Sqlite.query_table c w = Some t ->
  Sqlite.del c k w = (Ok tt, Sqlite.store_table c (tbl_del k t) w).
Proof. intros Hp Hq. unfold Sqlite.del. rewrite Hp, Hq. reflexivity. Qed.

(** Both backends observe the same results on a sorted table whose keys
    have no [char::MAX], up to LevelDB's removal of the prefix. *)
Lemma run_equiv (c1 : Leveldb.LeveldbCollection) (c2 : Sqlite.SqliteCollection)
    (ops : list Op) :
  forall (db : Leveldb.Database) (w : Sqlite.World) (t : Table),
  Leveldb.fault db = None -> Sqlite.conn_poisoned c2 = false ->
  Sqlite.query_table c2 w = Some t -> Leveldb.entries db = t ->
  tbl_sorted t -> keys_below_max t -> forallb op_keys_below_max ops = true ->
  run_leveldb c1 ops db
  = map (fun p => as_leveldb (fst p) (snd p)) (combine ops (run_sqlite c2 ops w)).
Proof.
  induction ops as [|op ops IH]; intros db w t Hf Hp Hq He Hs Hb Hops; [reflexivity|].
  simpl in Hops. apply andb_prop in Hops as [Hop Hops].
  destruct op as [k|k v|k|rv P].
  - simpl. f_equal.
    + rewrite (StateFacts.sqlite_get_table c2 k w t Hp Hq).
      unfold Leveldb.get. rewrite Hf, He. reflexivity.
    + apply (IH db w t); assumption.
  - simpl in Hop. simpl.
    rewrite (leveldb_put_eq c1 k v db Hf), (sqlite_put_eq c2 k v w t Hp Hq). simpl.
    f_equal. apply (IH _ _ (tbl_put k v t)); simpl; try assumption; try reflexivity.
    + apply SqliteFacts.query_store_same with (t := t). exact Hq.
    + rewrite He. reflexivity.
    + apply tbl_put_sorted, Hs.
    + apply CommonFacts.keys_below_max_put; assumption.
  - simpl.
    rewrite (leveldb_del_eq c1 k db Hf), (sqlite_del_eq c2 k w t Hp Hq). simpl.
    f_equal. apply (IH _ _ (tbl_del k t)); simpl; try assumption; try reflexivity.
    + apply SqliteFacts.query_store_same with (t := t). exact Hq.
    + rewrite He. reflexivity.
    + apply tbl_del_sorted, Hs.
    + apply CommonFacts.keys_below_max_del; assumption.
  - simpl. rewrite (SqliteFacts.iter_table c2 rv P w t Hp Hq). simpl.
    f_equal; [|apply (IH db w t); assumption].
    assert (Hv : Leveldb.view db = t) by (unfold Leveldb.view; rewrite Hf; exact He).
    assert (Hvs : tbl_sorted (Leveldb.view db)) by (rewrite Hv; exact Hs).
    f_equal. destruct rv.
    + rewrite (LeveldbFacts.iter_rev_sorted c1 P db Hvs), Hv.
      rewrite CommonFacts.filter_below_sentinel by exact Hb.
      rewrite CommonFacts.filter_rev', CommonFacts.map_sql_cut_below; [reflexivity|].
      apply Forall_rev, CommonFacts.keys_below_max_filter, Hb.
    + rewrite (LeveldbFacts.iter_fwd_sorted c1 P db Hvs), Hv.
      rewrite CommonFacts.map_sql_cut_below; [reflexivity|].
      apply CommonFacts.keys_below_max_filter, Hb.
Qed.

Lemma run_sqlite_length (c : Sqlite.SqliteCollection) (ops : list Op) (w : Sqlite.World) :
  Sqlite.conn_poisoned c = false -> length (run_sqlite c ops w) = length ops.
Proof.
  intros Hp. revert w. induction ops as [|[k|k v|k|rv P] ops IH]; intros w; simpl; auto.
  - destruct (Sqlite.put c k v w). simpl. auto.
  - destruct (Sqlite.del c k w). simpl. auto.
  - unfold Sqlite.iter, Sqlite.make_iter. rewrite Hp.
    destruct (Sqlite.query_table c w); simpl; auto.
Qed.

Lemma as_leveldb_nil (ops : list Op) (obs : list Obs) :
  forallb op_empty_prefix ops = true -> length obs = length ops ->
  map (fun p => as_leveldb (fst p) (snd p)) (combine ops obs) = obs.
Proof.
  revert obs. induction ops as [|op ops IH]; intros [|o obs] H Hl; simpl in *;
    try discriminate; [reflexivity|].
  apply andb_prop in H as [Ho H]. f_equal; [|apply IH; auto].
  destruct op as [k|k v|k|rv [|x P]]; try reflexivity; [|discriminate].
  destruct o; try reflexivity. simpl. rewrite CommonFacts.map_strip_nil. reflexivity.
Qed.

End EquivFacts.

(** C2 (counterexample): the same operations on a LevelDB collection and on
    an SQLite collection of the same name observe different iterations:
    after putting ["aa"] and ["ab"], [iterate(false, "a")] yields
    [("", A); ("b", B)] from LevelDB and [("aa", A); ("ab", B)] from SQLite. *)
Lemma backends_differ_on_prefix :
  run_leveldb (ldb_coll "t")
    [OpPut (str "aa") val_A; OpPut (str "ab") val_B; OpIter false (str "a")] ldb_empty
  = [ObsUnit (Ok tt); ObsUnit (Ok tt); ObsIter [(str "", val_A); (str "b", val_B)]]
  /\ match Sqlite.create_collection Sqlite.default (str "t") world0 with
     | Some (c, w) =>
         run_sqlite c
           [OpPut (str "aa") val_A; OpPut (str "ab") val_B; OpIter false (str "a")] w
         = [ObsUnit (Ok tt); ObsUnit (Ok tt);
            ObsIter [(str "aa", val_A); (str "ab", val_B)]]
     | None => False
     end.
Proof. vm_compute. split; reflexivity. Qed.

(** C2: on healthy stores holding the same sorted table, whose keys (and
    the keys the operations write) contain no [char::MAX], every sequence
    of operations observes the same results in both backends, except that
    LevelDB yields every iterated key with the prefix removed: each LevelDB
    observation is the SQLite one with [strip P] applied to the keys of an
    [iterate(_, P)].  When every iteration uses the prefix [""], the
    observations are identical.  Two fresh collections (a new LevelDB store
    and a new SQLite collection) start in this situation. *)
Theorem backends_agree_up_to_prefix_stripping :
  (forall (c1 : Leveldb.LeveldbCollection) (db : Leveldb.Database)
     (c2 : Sqlite.SqliteCollection) (w : Sqlite.World) (t : Table) (ops : list Op),
     Leveldb.fault db = None -> Sqlite.conn_poisoned c2 = false ->
     Sqlite.query_table c2 w = Some t -> Leveldb.entries db = t ->
     tbl_sorted t -> keys_below_max t -> forallb op_keys_below_max ops = true ->
     run_leveldb c1 ops db
     = map (fun p => as_leveldb (fst p) (snd p)) (combine ops (run_sqlite c2 ops w))
     /\ (forallb op_empty_prefix ops = true -> run_leveldb c1 ops db = run_sqlite c2 ops w))
  /\ (forall (c1 : Leveldb.LeveldbCollection) (m : Sqlite.SqliteManager) (n : key)
        (c2 : Sqlite.SqliteCollection) (w : Sqlite.World) (ops : list Op),
        Sqlite.create_collection m n world0 = Some (c2, w) ->
        forallb op_keys_below_max ops = true ->
        run_leveldb c1 ops ldb_empty
        = map (fun p => as_leveldb (fst p) (snd p)) (combine ops (run_sqlite c2 ops w))
        /\ (forallb op_empty_prefix ops = true -> run_leveldb c1 ops ldb_empty = run_sqlite c2 ops w)).
Proof.
  assert (H : forall c1 db c2 w t ops,
     Leveldb.fault db = None -> Sqlite.conn_poisoned c2 = false ->
     Sqlite.query_table c2 w = Some t -> Leveldb.entries db = t ->
     tbl_sorted t -> keys_below_max t -> forallb op_keys_below_max ops = true ->
     run_leveldb c1 ops db
     = map (fun p => as_leveldb (fst p) (snd p)) (combine ops (run_sqlite c2 ops w))
     /\ (forallb op_empty_prefix ops = true -> run_leveldb c1 ops db = run_sqlite c2 ops w)).
  { intros c1 db c2 w t ops Hf Hp Hq He Hs Hb Hops.
    pose proof (EquivFacts.run_equiv c1 c2 ops db w t Hf Hp Hq He Hs Hb Hops) as Hr.
    split; [exact Hr|]. intros He'. rewrite Hr.
    apply EquivFacts.as_leveldb_nil; [exact He'|].
    apply EquivFacts.run_sqlite_length, Hp. }
  split; [exact H|].
  intros c1 m n c2 w ops Hc Hops.
  destruct (StateFacts.create_fresh m n c2 w Hc) as [Hp Hq].
  apply (H c1 ldb_empty c2 w []); try assumption; try reflexivity; constructor.
Qed.

Lemma backends_agree_up_to_prefix_stripping_witness :
  exists c w, Sqlite.create_collection Sqlite.default (str "t") world0 = Some (c, w)
    /\ run_leveldb (ldb_coll "t") (abc_ops ++ [OpIter true []]) ldb_empty
       = run_sqlite c (abc_ops ++ [OpIter true []]) w.
Proof.
  destruct (Sqlite.create_collection Sqlite.default (str "t") world0) as [[c w]|] eqn:E;
    [|vm_compute in E; discriminate].
  exists c, w. split; [reflexivity|].
  apply (proj2 (proj2 backends_agree_up_to_prefix_stripping (ldb_coll "t") Sqlite.default
                  (str "t") c w (abc_ops ++ [OpIter true []]) E ltac:(reflexivity))).
  reflexivity.
Defined.

Module IsolationFacts.



End IsolationFacts.




(* ================================================================== *)
(** * Further properties of the two backends *)

(** ** Tables: how writes compose *)

Module StoreFacts.

Lemma tbl_get_put_other (k k' : key) (v : bytes) (t : Table) :
  key_eqb k' k = false -> tbl_get k' (tbl_put k v t) = tbl_get k' t.
Proof.
  intros Hne. induction t as [|[k1 v1] t IH]; simpl; [now rewrite Hne|].
  destruct (key_compare k k1) eqn:E; simpl.
  - apply key_compare_eq in E; subst k1. rewrite Hne. reflexivity.
  - rewrite Hne. reflexivity.
  - destruct (key_eqb k' k1); [reflexivity|exact IH].
Qed.

Lemma tbl_get_del_other (k k' : key) (t : Table) :
  key_eqb k' k = false -> tbl_get k' (tbl_del k t) = tbl_get k' t.
Proof.
  intros Hne. induction t as [|[k1 v1] t IH]; simpl; [reflexivity|].
  destruct (key_eqb k k1) eqn:E.
  - apply key_eqb_true in E; subst k1. rewrite Hne. reflexivity.
  - simpl. destruct (key_eqb k' k1); [reflexivity|exact IH].
Qed.

(** A key below every key of the table is not in it. *)
Lemma tbl_get_below (k : key) (t : Table) :
  Forall (fun e => key_compare k (fst e) = Lt) t -> tbl_get k t = None.
Proof.
  induction 1 as [|[k1 v1] t H1 _ IH]; simpl; [reflexivity|].
  simpl in H1. rewrite (key_eqb_lt _ _ H1). exact IH.
Qed.

Lemma tbl_del_absent (k : key) (t : Table) : tbl_get k t = None -> tbl_del k t = t.
Proof.
  induction t as [|[k1 v1] t IH]; simpl; [reflexivity|].
  destruct (key_eqb k k1); [discriminate|]. intros H. f_equal. exact (IH H).
Qed.

Lemma sorted_tail_above (k1 : key) (v1 : bytes) (k : key) (t : Table) :
  Forall (entry_lt (k1, v1)) t -> key_compare k k1 <> Gt ->
  Forall (fun e => key_compare k (fst e) = Lt) t.
Proof.
  intros Hf Hk. apply Forall_forall. intros x Hx.
  pose proof (proj1 (Forall_forall _ _) Hf x Hx) as H. unfold entry_lt in H. simpl in H.
  destruct (key_compare k k1) eqn:E.
  - apply key_compare_eq in E; subst; exact H.
  - eapply key_compare_trans; eauto.
  - contradiction.
Qed.

Lemma tbl_get_del_same (k : key) (t : Table) :
  tbl_sorted t -> tbl_get k (tbl_del k t) = None.
Proof.
  unfold tbl_sorted. intros Hs. induction Hs as [|[k1 v1] t Hs IH Hf]; simpl; [reflexivity|].
  destruct (key_eqb k k1) eqn:E.
  - apply key_eqb_true in E; subst k1. apply tbl_get_below.
    apply (sorted_tail_above k v1); [exact Hf|]. rewrite key_compare_refl. discriminate.
  - simpl. rewrite E. exact IH.
Qed.

Lemma tbl_put_put (k : key) (v1 v2 : bytes) (t : Table) :
  tbl_put k v2 (tbl_put k v1 t) = tbl_put k v2 t.
Proof.
  induction t as [|[k1 w1] t IH]; simpl; [now rewrite key_compare_refl|].
  destruct (key_compare k k1) eqn:E; simpl; rewrite ?key_compare_refl, ?E;
    [reflexivity|reflexivity|now rewrite IH].
Qed.

Lemma tbl_del_put (k : key) (v : bytes) (t : Table) :
  tbl_sorted t -> tbl_del k (tbl_put k v t) = tbl_del k t.
Proof.
  unfold tbl_sorted. intros Hs. induction Hs as [|[k1 w1] t Hs IH Hf]; simpl;
    [now rewrite key_eqb_refl|].
  destruct (key_compare k k1) eqn:E; simpl; rewrite ?key_eqb_refl.
  - apply key_compare_eq in E; subst k1. rewrite key_eqb_refl. reflexivity.
  - rewrite (key_eqb_lt _ _ E). f_equal. symmetry. apply tbl_del_absent, tbl_get_below.
    apply (sorted_tail_above k1 w1); [exact Hf|]. rewrite E. discriminate.
  - assert (Hne : key_eqb k k1 = false)
      by (unfold key_eqb; rewrite E; reflexivity).
    rewrite Hne, IH. reflexivity.
Qed.

Lemma tbl_del_del (k : key) (t : Table) :
  tbl_sorted t -> tbl_del k (tbl_del k t) = tbl_del k t.
Proof. intros Hs. apply tbl_del_absent, tbl_get_del_same, Hs. Qed.

Lemma set_assoc_db_twice (t : Sqlite.Target) (d1 d2 : Sqlite.Db) (l : list (Sqlite.Target * Sqlite.Db)) :
  Sqlite.set_assoc_db t d2 (Sqlite.set_assoc_db t d1 l) = Sqlite.set_assoc_db t d2 l.
Proof.
  induction l as [|[t' d'] l IH]; simpl; [now rewrite SqliteFacts.target_eqb_refl|].
  destruct (Sqlite.target_eqb t t') eqn:E; simpl; rewrite E; [reflexivity|now rewrite IH].
Qed.

Lemma set_assoc_table_twice (n : key) (t1 t2 : Table) (l : list (key * Table)) :
  Sqlite.set_assoc_table n t2 (Sqlite.set_assoc_table n t1 l) = Sqlite.set_assoc_table n t2 l.
Proof.
  induction l as [|[n' t'] l IH]; simpl; [now rewrite key_eqb_refl|].
  destruct (key_eqb n n') eqn:E; simpl; rewrite E; [reflexivity|now rewrite IH].
Qed.



(** Storing twice through a collection keeps the second table. *)
Lemma store_store (c : Sqlite.SqliteCollection) (t1 t2 : Table) (w : Sqlite.World) :
  Sqlite.store_table c t2 (Sqlite.store_table c t1 w) = Sqlite.store_table c t2 w.
Proof.
  unfold Sqlite.store_table at 1. rewrite SqliteFacts.resolve_store.
  unfold Sqlite.store_table.
  destruct (Sqlite.resolve (Sqlite.conn c) (Sqlite.table c) w) as [[t x]|]; [|reflexivity].
  destruct (Sqlite.db_of t w) as [d|] eqn:E; [|rewrite E; reflexivity].
  rewrite SqliteFacts.db_of_set_same. simpl.
  unfold Sqlite.set_db. simpl. rewrite set_assoc_db_twice, set_assoc_table_twice.
  reflexivity.
Qed.


End StoreFacts.

Module ExtraFacts.

(** Two collections that are not apart read the same table. *)
Lemma query_same_place (c d : Sqlite.SqliteCollection) (w : Sqlite.World) :
  sql_apart w c d = false -> Sqlite.query_table c w = Sqlite.query_table d w.
Proof.
  unfold sql_apart, Sqlite.query_table.
  destruct (Sqlite.resolve (Sqlite.conn c) (Sqlite.table c) w) as [[t1 x1]|]; [|discriminate].
  destruct (Sqlite.resolve (Sqlite.conn d) (Sqlite.table d) w) as [[t2 x2]|]; [|discriminate].
  intros H. apply negb_false_iff, andb_true_iff in H as [H1 H2].
  apply SqliteFacts.target_eqb_true in H1. apply key_eqb_true in H2. subst. reflexivity.
Qed.

(** After a write through [c], a collection [d] reads either what it read
    before or the table [c] stored. *)
Lemma query_after_store (c d : Sqlite.SqliteCollection) (t0 t : Table) (w : Sqlite.World) :
  Sqlite.query_table c w = Some t0 ->
  Sqlite.query_table d (Sqlite.store_table c t w) = Sqlite.query_table d w
  \/ Sqlite.query_table d (Sqlite.store_table c t w) = Some t.
Proof.
  intros Hq. destruct (sql_apart w c d) eqn:Ea.
  - left. apply SqliteFacts.query_store_apart; exact Ea.
  - right. rewrite <- (query_same_place c d (Sqlite.store_table c t w)).
    + apply SqliteFacts.query_store_same with (t := t0); exact Hq.
    + rewrite (SqliteFacts.sql_apart_readings w); [exact Ea|].
      exact (proj1 (SqliteFacts.store_readings c t w)).
Qed.

(** A collection created by a manager from no database, then written by
    [ops]: its table is the writes applied to the empty table. *)
Lemma setup_table (m : Sqlite.SqliteManager) (n : key) (ops : list Op)
    (c : Sqlite.SqliteCollection) (w : Sqlite.World) :
  sqlite_setup m n ops world0 = Some (c, w) ->
  Sqlite.conn_poisoned c = false /\ Sqlite.query_table c w = Some (tbl_writes ops []).
Proof.
  unfold sqlite_setup.
  destruct (Sqlite.create_collection m n world0) as [[c1 w1]|] eqn:E; [|discriminate].
  intros H; injection H as <- <-.
  destruct (StateFacts.create_fresh _ _ _ _ E) as [Hp Hq].
  split; [exact Hp|]. apply StateFacts.sqlite_writes_query; assumption.
Qed.

Lemma setup_sorted (m : Sqlite.SqliteManager) (n : key) (ops : list Op)
    (c : Sqlite.SqliteCollection) (w : Sqlite.World) :
  sqlite_setup m n ops world0 = Some (c, w) ->
  forall t, Sqlite.query_table c w = Some t -> tbl_sorted t.
Proof.
  intros H t Ht. destruct (setup_table m n ops c w H) as [_ Hq].
  rewrite Hq in Ht. injection Ht as <-. apply StateFacts.tbl_writes_sorted. constructor.
Qed.

Lemma prefixed_nil (e : key * bytes) : prefixed [] e = true.
Proof. destruct e as [k v]. reflexivity. Qed.

Lemma filter_prefixed_nil (l : list (key * bytes)) : filter (prefixed []) l = l.
Proof. apply CommonFacts.filter_all, Forall_forall. intros x _. apply prefixed_nil. Qed.

End ExtraFacts.

(** ** Writes and reads *)

(** A delete that succeeds is followed by [EntryNotFound] for the deleted
    key: in LevelDB for any collection of the store, in SQLite for the
    collection written, as long as the table holds each key once. *)
Theorem del_then_get_not_found :
  (forall (c c' : Leveldb.LeveldbCollection) (k : key) (db : Leveldb.Database),
     tbl_sorted (Leveldb.entries db) -> fst (Leveldb.del c k db) = Ok tt ->
     Leveldb.get c' k (snd (Leveldb.del c k db)) = Err EntryNotFound)
  /\ (forall (c : Sqlite.SqliteCollection) (k : key) (w : Sqlite.World),
        fst (Sqlite.del c k w) = Ok tt ->
        (forall t, Sqlite.query_table c w = Some t -> tbl_sorted t) ->
        Sqlite.get c k (snd (Sqlite.del c k w)) = Err EntryNotFound).
Proof.
  split.
  - intros c c' k db Hs Hd. unfold Leveldb.del, Leveldb.get, Leveldb.generate_key in *.
    destruct (Leveldb.fault db) eqn:Ef; simpl in Hd; [discriminate|]. simpl.
    rewrite (StoreFacts.tbl_get_del_same k _ Hs). reflexivity.
  - intros c k w Hd Hs. unfold Sqlite.del in *.
    destruct (Sqlite.conn_poisoned c) eqn:Hp; [simpl in Hd; discriminate|].
    destruct (Sqlite.query_table c w) as [t|] eqn:Eq; simpl in Hd; [|discriminate]. simpl.
    rewrite (StateFacts.sqlite_get_table c k _ (tbl_del k t) Hp).
    + rewrite (StoreFacts.tbl_get_del_same k t (Hs t eq_refl)). reflexivity.
    + apply SqliteFacts.query_store_same with (t := t); exact Eq.
Qed.

Lemma del_then_get_not_found_witness :
  Leveldb.get (ldb_coll "t") (str "ab")
    (snd (Leveldb.del (ldb_coll "t") (str "ab") ldb_abc)) = Err EntryNotFound
  /\ exists c w, sqlite_setup Sqlite.default (str "t") abc_ops world0 = Some (c, w)
       /\ Sqlite.get c (str "ab") (snd (Sqlite.del c (str "ab") w)) = Err EntryNotFound.
Proof.
  split.
  - apply (proj1 del_then_get_not_found).
    + apply StateFacts.leveldb_reached_sorted.
    + vm_compute. reflexivity.
  - destruct (sqlite_setup Sqlite.default (str "t") abc_ops world0) as [[c w]|] eqn:E;
      [|vm_compute in E; discriminate].
    exists c, w. split; [reflexivity|].
    apply (proj2 del_then_get_not_found).
    + destruct (ExtraFacts.setup_table _ _ _ _ _ E) as [Hp Hq].
      unfold Sqlite.del. rewrite Hp, Hq. reflexivity.
    + exact (ExtraFacts.setup_sorted _ _ _ _ _ E).
Defined.

(** A put or a delete of key [k] does not change what [get] returns for any
    other key, in either backend. *)
Theorem writes_leave_other_keys :
  (forall (c c' : Leveldb.LeveldbCollection) (k k' : key) (v : bytes) (db : Leveldb.Database),
     key_eqb k' k = false ->
     Leveldb.get c' k' (snd (Leveldb.put c k v db)) = Leveldb.get c' k' db
     /\ Leveldb.get c' k' (snd (Leveldb.del c k db)) = Leveldb.get c' k' db)
  /\ (forall (c : Sqlite.SqliteCollection) (k k' : key) (v : bytes) (w : Sqlite.World),
        key_eqb k' k = false ->
        Sqlite.get c k' (snd (Sqlite.put c k v w)) = Sqlite.get c k' w
        /\ Sqlite.get c k' (snd (Sqlite.del c k w)) = Sqlite.get c k' w).
Proof.
  split.
  - intros c c' k k' v db Hne. unfold Leveldb.put, Leveldb.del, Leveldb.get, Leveldb.generate_key.
    destruct (Leveldb.fault db) eqn:Ef; simpl; [rewrite Ef; split; reflexivity|].
    rewrite (StoreFacts.tbl_get_put_other k k' v _ Hne),
            (StoreFacts.tbl_get_del_other k k' _ Hne).
    split; reflexivity.
  - intros c k k' v w Hne. unfold Sqlite.put, Sqlite.del.
    destruct (Sqlite.conn_poisoned c) eqn:Hp; [split; reflexivity|].
    destruct (Sqlite.query_table c w) as [t|] eqn:Eq; simpl; [|split; reflexivity].
    unfold Sqlite.get. rewrite Hp, Eq.
    rewrite (SqliteFacts.query_store_same c t (tbl_put k v t) w Eq),
            (SqliteFacts.query_store_same c t (tbl_del k t) w Eq).
    rewrite (StoreFacts.tbl_get_put_other k k' v _ Hne), (StoreFacts.tbl_get_del_other k k' _ Hne).
    split; reflexivity.
Qed.

Lemma writes_leave_other_keys_witness :
  (Leveldb.get (ldb_coll "t") (str "aa") (snd (Leveldb.put (ldb_coll "t") (str "ab") val_C ldb_abc))
   = Leveldb.get (ldb_coll "t") (str "aa") ldb_abc
   /\ Leveldb.get (ldb_coll "t") (str "aa") (snd (Leveldb.del (ldb_coll "t") (str "ab") ldb_abc))
      = Leveldb.get (ldb_coll "t") (str "aa") ldb_abc)
  /\ (Sqlite.get file_coll (str "aa") (snd (Sqlite.put file_coll (str "ab") val_C empty_world))
      = Sqlite.get file_coll (str "aa") empty_world
      /\ Sqlite.get file_coll (str "aa") (snd (Sqlite.del file_coll (str "ab") empty_world))
         = Sqlite.get file_coll (str "aa") empty_world).
Proof.
  split.
  - apply (proj1 writes_leave_other_keys). reflexivity.
  - apply (proj2 writes_leave_other_keys). reflexivity.
Defined.

(** Putting [k] twice leaves the store as putting only the second value
    does, in either backend and whatever the store's state. *)
Theorem second_put_overwrites :
  (forall (c : Leveldb.LeveldbCollection) (k : key) (v1 v2 : bytes) (db : Leveldb.Database),
     snd (Leveldb.put c k v2 (snd (Leveldb.put c k v1 db))) = snd (Leveldb.put c k v2 db))
  /\ (forall (c : Sqlite.SqliteCollection) (k : key) (v1 v2 : bytes) (w : Sqlite.World),
        snd (Sqlite.put c k v2 (snd (Sqlite.put c k v1 w))) = snd (Sqlite.put c k v2 w)).
Proof.
  split.
  - intros c k v1 v2 db. unfold Leveldb.put, Leveldb.generate_key.
    destruct (Leveldb.fault db) eqn:Ef; simpl; [rewrite Ef; reflexivity|].
    rewrite StoreFacts.tbl_put_put. reflexivity.
  - intros c k v1 v2 w. unfold Sqlite.put.
    destruct (Sqlite.conn_poisoned c); [reflexivity|].
    destruct (Sqlite.query_table c w) as [t|] eqn:Eq; simpl; [|rewrite Eq; reflexivity].
    rewrite (SqliteFacts.query_store_same c t (tbl_put k v1 t) w Eq). simpl.
    rewrite StoreFacts.tbl_put_put. apply StoreFacts.store_store.
Qed.

(** A put of [k] followed by a delete of [k] leaves the store as the delete
    alone does. *)
Theorem put_then_del_is_del :
  (forall (c : Leveldb.LeveldbCollection) (k : key) (v : bytes) (db : Leveldb.Database),
     tbl_sorted (Leveldb.entries db) ->
     snd (Leveldb.del c k (snd (Leveldb.put c k v db))) = snd (Leveldb.del c k db))
  /\ (forall (c : Sqlite.SqliteCollection) (k : key) (v : bytes) (w : Sqlite.World),
        (forall t, Sqlite.query_table c w = Some t -> tbl_sorted t) ->
        snd (Sqlite.del c k (snd (Sqlite.put c k v w))) = snd (Sqlite.del c k w)).
Proof.
  split.
  - intros c k v db Hs. unfold Leveldb.put, Leveldb.del, Leveldb.generate_key.
    destruct (Leveldb.fault db) eqn:Ef; simpl; [rewrite Ef; reflexivity|].
    rewrite (StoreFacts.tbl_del_put k v _ Hs). reflexivity.
  - intros c k v w Hs. unfold Sqlite.put, Sqlite.del.
    destruct (Sqlite.conn_poisoned c); [reflexivity|].
    destruct (Sqlite.query_table c w) as [t|] eqn:Eq; simpl; [|rewrite Eq; reflexivity].
    rewrite (SqliteFacts.query_store_same c t (tbl_put k v t) w Eq). simpl.
    rewrite (StoreFacts.tbl_del_put k v t (Hs t eq_refl)). apply StoreFacts.store_store.
Qed.

Lemma put_then_del_is_del_witness :
  snd (Leveldb.del (ldb_coll "t") (str "zz") (snd (Leveldb.put (ldb_coll "t") (str "zz") val_A ldb_abc)))
  = snd (Leveldb.del (ldb_coll "t") (str "zz") ldb_abc)
  /\ exists c w, sqlite_setup Sqlite.default (str "t") abc_ops world0 = Some (c, w)
       /\ snd (Sqlite.del c (str "zz") (snd (Sqlite.put c (str "zz") val_A w)))
          = snd (Sqlite.del c (str "zz") w).
Proof.
  split.
  - apply (proj1 put_then_del_is_del). apply StateFacts.leveldb_reached_sorted.
  - destruct (sqlite_setup Sqlite.default (str "t") abc_ops world0) as [[c w]|] eqn:E;
      [|vm_compute in E; discriminate].
    exists c, w. split; [reflexivity|].
    apply (proj2 put_then_del_is_del). exact (ExtraFacts.setup_sorted _ _ _ _ _ E).
Defined.



(** ** Iteration *)

(** SQLite's reverse iteration yields exactly the forward iteration's
    entries in the opposite order (and panics or fails exactly when the
    forward one does). *)
Theorem sqlite_reverse_is_forward_reversed :
  forall (c : Sqlite.SqliteCollection) (P : key) (w : Sqlite.World),
    Sqlite.iter c true P w = option_map (@rev (key * bytes)) (Sqlite.iter c false P w).
Proof.
  intros c P w. unfold Sqlite.iter, Sqlite.make_iter.
  destruct (Sqlite.conn_poisoned c); [reflexivity|].
  destruct (Sqlite.query_table c w) as [t|]; simpl; [|reflexivity].
  rewrite !SqliteFacts.collect_rows_eq, CommonFacts.filter_rev', map_rev. reflexivity.
Qed.

(** Over a store whose keys hold no [char::MAX], LevelDB's reverse iteration
    yields exactly the forward iteration's entries in the opposite order. *)
Theorem leveldb_reverse_is_forward_reversed :
  forall (c : Leveldb.LeveldbCollection) (P : key) (db : Leveldb.Database),
    tbl_sorted (Leveldb.entries db) -> keys_below_max (Leveldb.entries db) ->
    Leveldb.iter c true P db = rev (Leveldb.iter c false P db).
Proof.
  intros c P db Hs Hb.
  assert (Hvs : tbl_sorted (Leveldb.view db)) by (apply LeveldbFacts.view_sorted; exact Hs).
  assert (Hvb : keys_below_max (Leveldb.view db))
    by (unfold Leveldb.view; destruct (Leveldb.fault db); [apply CommonFacts.keys_below_max_filter, Hb|exact Hb]).
  rewrite (LeveldbFacts.iter_rev_sorted c P db Hvs), (LeveldbFacts.iter_fwd_sorted c P db Hvs).
  rewrite (CommonFacts.filter_below_sentinel P _ Hvb), map_rev. reflexivity.
Qed.

Lemma leveldb_reverse_is_forward_reversed_witness :
  Leveldb.iter (ldb_coll "t") true (str "a") ldb_abc
  = rev (Leveldb.iter (ldb_coll "t") false (str "a") ldb_abc).
Proof.
  apply leveldb_reverse_is_forward_reversed.
  - apply StateFacts.leveldb_reached_sorted.
  - apply CommonFacts.keys_below_max_forallb. vm_compute. reflexivity.
Defined.

(** Iterating with the empty prefix yields every stored entry, unchanged,
    in ascending key order (forward) or descending order (reverse): in
    LevelDB over a healthy store, in SQLite over a readable table whose keys
    hold no [char::MAX]. *)
Theorem empty_prefix_yields_everything :
  (forall (c : Leveldb.LeveldbCollection) (db : Leveldb.Database),
     Leveldb.fault db = None -> tbl_sorted (Leveldb.entries db) ->
     Leveldb.iter c false [] db = Leveldb.entries db)
  /\ (forall (c : Sqlite.SqliteCollection) (rv : bool) (w : Sqlite.World) (t : Table),
        Sqlite.conn_poisoned c = false -> Sqlite.query_table c w = Some t ->
        keys_below_max t ->
        Sqlite.iter c rv [] w = Some (if rv then rev t else t)).
Proof.
  split.
  - intros c db Hf Hs.
    assert (Hv : Leveldb.view db = Leveldb.entries db)
      by (unfold Leveldb.view; rewrite Hf; reflexivity).
    rewrite (LeveldbFacts.iter_fwd_sorted c [] db) by (rewrite Hv; exact Hs).
    rewrite ExtraFacts.filter_prefixed_nil, CommonFacts.map_strip_nil. exact Hv.
  - intros c rv w t Hp Hq Hb. rewrite (SqliteFacts.iter_table c rv [] w t Hp Hq).
    rewrite ExtraFacts.filter_prefixed_nil, CommonFacts.map_sql_cut_below; [reflexivity|].
    destruct rv; [|exact Hb].
    unfold keys_below_max in *. apply Forall_forall. intros x Hx.
    apply in_rev in Hx. exact (proj1 (Forall_forall _ _) Hb x Hx).
Qed.

Lemma empty_prefix_yields_everything_witness :
  Leveldb.iter (ldb_coll "t") false [] ldb_abc = Leveldb.entries ldb_abc
  /\ exists c w, sqlite_setup Sqlite.default (str "t") abc_ops world0 = Some (c, w)
       /\ Sqlite.iter c true [] w = Some (rev (tbl_writes abc_ops [])).
Proof.
  split.
  - apply (proj1 empty_prefix_yields_everything); [reflexivity|].
    apply StateFacts.leveldb_reached_sorted.
  - destruct (sqlite_setup Sqlite.default (str "t") abc_ops world0) as [[c w]|] eqn:E;
      [|vm_compute in E; discriminate].
    exists c, w. split; [reflexivity|].
    destruct (ExtraFacts.setup_table _ _ _ _ _ E) as [Hp Hq].
    apply (proj2 empty_prefix_yields_everything c true w _ Hp Hq).
    apply CommonFacts.keys_below_max_forallb. vm_compute. reflexivity.
Defined.

Module CreateFacts.




End CreateFacts.

(** ** Collections and tables *)



(** With a manager on [":memory:"], every new collection starts empty, whatever
    databases and tables already exist: its iteration yields nothing and
    its [get] finds no key. *)
Theorem memory_collection_starts_empty :
  forall (m : Sqlite.SqliteManager) (n : key) (w w' : Sqlite.World) (c : Sqlite.SqliteCollection),
    key_eqb (Sqlite.path m) (str ":memory:") = true ->
    Sqlite.create_collection m n w = Some (c, w') ->
    Sqlite.query_table c w' = Some []
    /\ (forall rv P, Sqlite.iter c rv P w' = Some [])
    /\ (forall k, Sqlite.get c k w' = Err EntryNotFound).
Proof.
  intros m n w w' c Hm Hc.
  destruct (SqliteFacts.create_collection_fields _ _ _ _ _ Hc) as [Hp [Hn [w1 [Ho Hct]]]].
  apply key_eqb_true in Hm.
  assert (Hk : Sqlite.open_kind (Sqlite.path m) w = Sqlite.OpenPrivate)
    by (rewrite Hm; reflexivity).
  destruct (SqliteFacts.open_spec _ _ _ _ Ho)
    as [_ [[_ [Hmain Hw1]]|[[[q [Hq _]]|[q [Hq _]]] _]]];
    [|rewrite Hk in Hq; discriminate|rewrite Hk in Hq; discriminate].
  destruct (SqliteFacts.create_table_query _ _ _ _ false Hct) as [t [x [d0 [Hr [Hd [_ Hqt]]]]]].
  assert (Hd0 : d0 = Sqlite.empty_db).
  { rewrite Hw1 in Hd.
    destruct (SqliteFacts.resolve_cases _ _ _ _ _ Hr) as [[_ ->]|[_ ->]].
    - rewrite Hmain, SqliteFacts.db_of_set_same in Hd. injection Hd as <-. reflexivity.
    - rewrite SqliteFacts.db_of_set_other, SqliteFacts.db_of_set_same in Hd by reflexivity.
      injection Hd as <-. reflexivity. }
  subst d0. simpl in Hqt.
  assert (Hq : Sqlite.query_table c w' = Some []).
  { destruct c as [cn b nm]. simpl in Hp, Hn. subst b nm. exact Hqt. }
  split; [exact Hq|split].
  - intros rv P. rewrite (SqliteFacts.iter_table c rv P w' [] Hp Hq). destruct rv; reflexivity.
  - intros k. rewrite (StateFacts.sqlite_get_table c k w' [] Hp Hq). reflexivity.
Qed.

Lemma memory_collection_starts_empty_witness :
  exists c w', Sqlite.create_collection Sqlite.default (str "t") empty_world = Some (c, w')
    /\ Sqlite.iter c false [] w' = Some [].
Proof.
  destruct (Sqlite.create_collection Sqlite.default (str "t") empty_world) as [[c w']|] eqn:E;
    [|vm_compute in E; discriminate].
  exists c, w'. split; [reflexivity|].
  exact (proj1 (proj2 (memory_collection_starts_empty Sqlite.default (str "t") empty_world w' c
                          eq_refl E)) false []).
Defined.

(** Puts and deletes keep every table ordered by key with each key once:
    the LevelDB keyspace, and in SQLite every table of every database (a
    write through one collection changes only the table it names). *)
Theorem writes_keep_tables_sorted :
  (forall (c : Leveldb.LeveldbCollection) (k : key) (v : bytes) (db : Leveldb.Database),
     tbl_sorted (Leveldb.entries db) ->
     tbl_sorted (Leveldb.entries (snd (Leveldb.put c k v db)))
     /\ tbl_sorted (Leveldb.entries (snd (Leveldb.del c k db))))
  /\ (forall (c : Sqlite.SqliteCollection) (k : key) (v : bytes) (w : Sqlite.World),
        (forall d t, Sqlite.query_table d w = Some t -> tbl_sorted t) ->
        (forall d t, Sqlite.query_table d (snd (Sqlite.put c k v w)) = Some t -> tbl_sorted t)
        /\ (forall d t, Sqlite.query_table d (snd (Sqlite.del c k w)) = Some t -> tbl_sorted t)).
Proof.
  split.
  - intros c k v db Hs. unfold Leveldb.put, Leveldb.del, Leveldb.generate_key.
    destruct (Leveldb.fault db); simpl; [split; exact Hs|].
    split; [apply tbl_put_sorted|apply tbl_del_sorted]; exact Hs.
  - intros c k v w Hs. unfold Sqlite.put, Sqlite.del.
    destruct (Sqlite.conn_poisoned c); [split; exact Hs|].
    destruct (Sqlite.query_table c w) as [t0|] eqn:Eq; simpl; [|split; exact Hs].
    split; intros d t Hd.
    + destruct (ExtraFacts.query_after_store c d t0 (tbl_put k v t0) w Eq) as [H|H];
        rewrite H in Hd; [exact (Hs d t Hd)|].
      injection Hd as <-. apply tbl_put_sorted, (Hs c t0 Eq).
    + destruct (ExtraFacts.query_after_store c d t0 (tbl_del k t0) w Eq) as [H|H];
        rewrite H in Hd; [exact (Hs d t Hd)|].
      injection Hd as <-. apply tbl_del_sorted, (Hs c t0 Eq).
Qed.

Lemma writes_keep_tables_sorted_witness :
  tbl_sorted (Leveldb.entries (snd (Leveldb.put (ldb_coll "t") (str "b") val_B ldb_abc)))
  /\ (forall d t, Sqlite.query_table d (snd (Sqlite.put file_coll (str "b") val_B empty_world))
                  = Some t -> tbl_sorted t).
Proof.
  split.
  - apply (proj1 writes_keep_tables_sorted). apply StateFacts.leveldb_reached_sorted.
  - apply (proj2 writes_keep_tables_sorted).
    intros d t H. unfold Sqlite.query_table in H.
    destruct (Sqlite.resolve (Sqlite.conn d) (Sqlite.table d) empty_world) as [[u x]|];
      [|discriminate H].
    unfold Sqlite.db_of in H. simpl in H.
    match type of H with context [Sqlite.target_eqb ?a ?b] =>
      destruct (Sqlite.target_eqb a b) end; simpl in H; [|discriminate H].
    match type of H with context [key_eqb ?a ?b] =>
      destruct (key_eqb a b) end; simpl in H; [|discriminate H].
    injection H as <-. constructor.
Defined.

(** ** UTF-8 facts *)

Module Utf8Facts.
Import Utf8.
Local Open Scope N_scope.

Ltac ndm := zify; Z.to_euclidean_division_equations; lia.

Lemma land_low (a b : N) (k : N) : b < 2 ^ k -> N.land (a * 2 ^ k) b = 0.
Proof.
  intros Hb. apply N.bits_inj_iff. intros i. rewrite N.land_spec, N.bits_0.
  destruct (N.lt_ge_cases i k) as [Hi|Hi].
  - rewrite N.mul_pow2_bits_low by exact Hi. reflexivity.
  - destruct (N.eq_dec b 0) as [->|Hnz]; [rewrite N.bits_0; apply andb_false_r|].
    rewrite (N.bits_above_log2 b i); [apply andb_false_r|].
    apply N.log2_lt_pow2 in Hb; lia.
Qed.

Lemma lor_add (a b k : N) : b < 2 ^ k -> N.lor (a * 2 ^ k) b = a * 2 ^ k + b.
Proof.
  intros Hb. rewrite <- N.lxor_lor by (apply land_low; exact Hb).
  rewrite N.add_nocarry_lxor by (apply land_low; exact Hb). reflexivity.
Qed.

Lemma land_mask (a n : N) : N.land a (2 ^ n - 1) = a mod 2 ^ n.
Proof. rewrite <- N.land_ones. f_equal. rewrite N.ones_equiv. lia. Qed.

Lemma tag (b c k : N) : b < 2 ^ k -> N.lor b (c * 2 ^ k) = c * 2 ^ k + b.
Proof. intros H. rewrite N.lor_comm. apply lor_add, H. Qed.

(** Byte values of an encoding, as digits. *)
Lemma cont_byte (x : N) : N.lor (as_u8 (N.land x 0x3F)) TAG_CONT = x mod 64 + 128.
Proof.
  unfold as_u8, TAG_CONT. change 0x3F with (2 ^ 6 - 1). rewrite land_mask.
  change (2 ^ 6) with 64. change 0x80 with (2 * 2 ^ 6).
  rewrite (N.mod_small (x mod 64) 256) by ndm. rewrite tag by ndm. ndm.
Qed.

Lemma encode_1 (x : N) : x < 0x80 -> encode_utf8_raw x = [x].
Proof.
  intros H. unfold encode_utf8_raw, len_utf8.
  replace (x <? MAX_ONE_B) with true by (symmetry; apply N.ltb_lt; exact H).
  unfold as_u8. rewrite N.mod_small by lia. reflexivity.
Qed.

Lemma encode_2 (x : N) : 0x80 <= x < 0x800 ->
  encode_utf8_raw x = [x / 64 + 192; x mod 64 + 128].
Proof.
  intros H. unfold encode_utf8_raw, len_utf8.
  replace (x <? MAX_ONE_B) with false by (symmetry; apply N.ltb_ge; unfold MAX_ONE_B; lia).
  replace (x <? MAX_TWO_B) with true by (symmetry; apply N.ltb_lt; unfold MAX_TWO_B; lia).
  rewrite !cont_byte. f_equal.
  unfold as_u8, TAG_TWO_B. change 0x1F with (2 ^ 5 - 1). rewrite land_mask, N.shiftr_div_pow2.
  change (2 ^ 5) with 32. change (2 ^ 6) with 64. change 0xC0 with (6 * 2 ^ 5).
  rewrite (N.mod_small ((x / 64) mod 32) 256) by ndm. rewrite tag by ndm. ndm.
Qed.


Lemma encode_3 (x : N) : 0x800 <= x < 0x10000 ->
  encode_utf8_raw x = [x / 4096 + 224; (x / 64) mod 64 + 128; x mod 64 + 128].
Proof.
  intros H. unfold encode_utf8_raw, len_utf8.
  replace (x <? MAX_ONE_B) with false by (symmetry; apply N.ltb_ge; unfold MAX_ONE_B; lia).
  replace (x <? MAX_TWO_B) with false by (symmetry; apply N.ltb_ge; unfold MAX_TWO_B; lia).
  replace (x <? MAX_THREE_B) with true by (symmetry; apply N.ltb_lt; unfold MAX_THREE_B; lia).
  rewrite !cont_byte, !N.shiftr_div_pow2. change (2 ^ 6) with 64. f_equal.
  unfold as_u8, TAG_THREE_B. change 0x0F with (2 ^ 4 - 1). rewrite land_mask.
  change (2 ^ 4) with 16. change (2 ^ 12) with 4096. change 0xE0 with (14 * 2 ^ 4).
  rewrite (N.mod_small ((x / 4096) mod 16) 256) by ndm. rewrite tag by ndm. ndm.
Qed.

Lemma encode_4 (x : N) : 0x10000 <= x <= 0x10FFFF ->
  encode_utf8_raw x
  = [x / 262144 + 240; (x / 4096) mod 64 + 128; (x / 64) mod 64 + 128; x mod 64 + 128].
Proof.
  intros H. unfold encode_utf8_raw, len_utf8.
  replace (x <? MAX_ONE_B) with false by (symmetry; apply N.ltb_ge; unfold MAX_ONE_B; lia).
  replace (x <? MAX_TWO_B) with false by (symmetry; apply N.ltb_ge; unfold MAX_TWO_B; lia).
  replace (x <? MAX_THREE_B) with false by (symmetry; apply N.ltb_ge; unfold MAX_THREE_B; lia).
  rewrite !cont_byte, !N.shiftr_div_pow2. change (2 ^ 6) with 64. change (2 ^ 12) with 4096.
  f_equal.
  unfold as_u8, TAG_FOUR_B. change 0x07 with (2 ^ 3 - 1). rewrite land_mask.
  change (2 ^ 3) with 8. change (2 ^ 18) with 262144. change 0xF0 with (30 * 2 ^ 3).
  rewrite (N.mod_small ((x / 262144) mod 8) 256) by ndm. rewrite tag by ndm. ndm.
Qed.

Lemma acc_cont (ch d : N) : d < 64 -> utf8_acc_cont_byte ch (d + 128) = ch * 64 + d.
Proof.
  intros H. unfold utf8_acc_cont_byte, CONT_MASK. change 0x3F with (2 ^ 6 - 1).
  rewrite land_mask, N.shiftl_mul_pow2. change (2 ^ 6) with 64.
  replace ((d + 128) mod 64) with d by ndm.
  change 64 with (2 ^ 6) at 1. rewrite lor_add by (change (2 ^ 6) with 64; exact H). reflexivity.
Qed.

Lemma first_byte (b : N) : utf8_first_byte b 2 = b mod 32.
Proof. unfold utf8_first_byte. change (N.shiftr 0x7F 2) with (2 ^ 5 - 1). apply land_mask. Qed.

Lemma next_1 (x : N) (r : list N) : x < 128 -> next_code_point (x :: r) = Some (x, r).
Proof. intros H. simpl. replace (x <? 128) with true by (symmetry; apply N.ltb_lt; exact H). reflexivity. Qed.

Lemma next_2 (q d : N) (r : list N) : q < 32 -> d < 64 ->
  next_code_point ([q + 192; d + 128] ++ r) = Some (q * 64 + d, r).
Proof.
  intros Hq Hd. simpl app. unfold next_code_point.
  replace (q + 192 <? 128) with false by (symmetry; apply N.ltb_ge; lia).
  replace (0xE0 <=? q + 192) with false by (symmetry; apply N.leb_gt; lia).
  rewrite first_byte, acc_cont by exact Hd. do 3 f_equal. ndm.
Qed.

Lemma next_3 (q d2 d3 : N) (r : list N) : q < 16 -> d2 < 64 -> d3 < 64 ->
  next_code_point ([q + 224; d2 + 128; d3 + 128] ++ r) = Some (q * 4096 + d2 * 64 + d3, r).
Proof.
  intros Hq H2 H3. simpl app. unfold next_code_point.
  replace (q + 224 <? 128) with false by (symmetry; apply N.ltb_ge; lia).
  replace (0xE0 <=? q + 224) with true by (symmetry; apply N.leb_le; lia).
  replace (0xF0 <=? q + 224) with false by (symmetry; apply N.leb_gt; lia).
  unfold CONT_MASK. change 0x3F with (2 ^ 6 - 1). rewrite land_mask. change (2 ^ 6) with 64.
  replace ((d2 + 128) mod 64) with d2 by ndm.
  rewrite first_byte, acc_cont by exact H3. rewrite N.shiftl_mul_pow2.
  replace ((q + 224) mod 32) with q by ndm.
  rewrite lor_add by (change (2 ^ 12) with 4096; nia).
  change (2 ^ 12) with 4096. do 2 f_equal. ring.
Qed.

Lemma next_4 (q d2 d3 d4 : N) (r : list N) : q < 8 -> d2 < 64 -> d3 < 64 -> d4 < 64 ->
  next_code_point ([q + 240; d2 + 128; d3 + 128; d4 + 128] ++ r)
  = Some (q * 262144 + d2 * 4096 + d3 * 64 + d4, r).
Proof.
  intros Hq H2 H3 H4. simpl app. unfold next_code_point.
  replace (q + 240 <? 128) with false by (symmetry; apply N.ltb_ge; lia).
  replace (0xE0 <=? q + 240) with true by (symmetry; apply N.leb_le; lia).
  replace (0xF0 <=? q + 240) with true by (symmetry; apply N.leb_le; lia).
  unfold CONT_MASK. change 0x3F with (2 ^ 6 - 1). rewrite land_mask. change (2 ^ 6) with 64.
  replace ((d2 + 128) mod 64) with d2 by ndm.
  rewrite first_byte, !acc_cont by assumption.
  replace ((q + 240) mod 32) with (q + 16) by ndm.
  change 7 with (2 ^ 3 - 1). rewrite land_mask. change (2 ^ 3) with 8.
  replace ((q + 16) mod 8) with q by ndm.
  rewrite N.shiftl_mul_pow2, lor_add by (change (2 ^ 18) with 262144; nia).
  change (2 ^ 18) with 262144. do 2 f_equal. ring.
Qed.


(** Settle the comparisons of a boolean test by arithmetic. *)
Ltac decide_cmp :=
  repeat match goal with
  | |- context [N.eqb ?a ?b] =>
      first [replace (N.eqb a b) with true by (symmetry; apply N.eqb_eq; lia)
            |replace (N.eqb a b) with false by (symmetry; apply N.eqb_neq; lia)]
  | |- context [N.leb ?a ?b] =>
      first [replace (N.leb a b) with true by (symmetry; apply N.leb_le; lia)
            |replace (N.leb a b) with false by (symmetry; apply N.leb_gt; lia)]
  | |- context [N.ltb ?a ?b] =>
      first [replace (N.ltb a b) with true by (symmetry; apply N.ltb_lt; lia)
            |replace (N.ltb a b) with false by (symmetry; apply N.ltb_ge; lia)]
  end; reflexivity.

Lemma in_range_true (lo hi b : N) : lo <= b <= hi -> in_range lo hi b = true.
Proof. intros H. unfold in_range. apply andb_true_intro; split; apply N.leb_le; lia. Qed.

Lemma cont_not_ge (d : N) : d < 64 -> i8_ge_m64 (d + 128) = false.
Proof.
  intros H. unfold i8_ge_m64. apply orb_false_intro; [apply N.ltb_ge|apply N.leb_gt]; lia.
Qed.

Lemma valid_2 (q d : N) (r : list N) : 2 <= q < 32 -> d < 64 ->
  run_utf8_validation ([q + 192; d + 128] ++ r) = run_utf8_validation r.
Proof.
  intros Hq Hd. simpl app. cbn [run_utf8_validation].
  replace (q + 192 <? 128) with false by (symmetry; apply N.ltb_ge; lia).
  replace (utf8_char_width (q + 192)) with 2%nat.
  - rewrite cont_not_ge by exact Hd. reflexivity.
  - unfold utf8_char_width.
    replace (q + 192 <? 0x80) with false by (symmetry; apply N.ltb_ge; lia).
    replace (q + 192 <? 0xC2) with false by (symmetry; apply N.ltb_ge; lia).
    replace (q + 192 <? 0xE0) with true by (symmetry; apply N.ltb_lt; lia). reflexivity.
Qed.

Lemma valid_3 (q d2 d3 : N) (r : list N) : q < 16 -> d2 < 64 -> d3 < 64 ->
  (q = 0 -> 32 <= d2) -> (q = 13 -> d2 < 32) ->
  run_utf8_validation ([q + 224; d2 + 128; d3 + 128] ++ r) = run_utf8_validation r.
Proof.
  intros Hq H2 H3 H0 H13. simpl app. cbn [run_utf8_validation].
  replace (q + 224 <? 128) with false by (symmetry; apply N.ltb_ge; lia).
  replace (utf8_char_width (q + 224)) with 3%nat.
  - replace (second_ok3 (q + 224) (d2 + 128)) with true.
    + rewrite cont_not_ge by exact H3. reflexivity.
    + symmetry. unfold second_ok3, in_range.
      assert (q = 0 \/ (1 <= q <= 12) \/ q = 13 \/ (14 <= q <= 15)) as [->|[Hm|[->|Hm]]]
        by lia; decide_cmp.
  - unfold utf8_char_width.
    replace (q + 224 <? 0x80) with false by (symmetry; apply N.ltb_ge; lia).
    replace (q + 224 <? 0xC2) with false by (symmetry; apply N.ltb_ge; lia).
    replace (q + 224 <? 0xE0) with false by (symmetry; apply N.ltb_ge; lia).
    replace (q + 224 <? 0xF0) with true by (symmetry; apply N.ltb_lt; lia). reflexivity.
Qed.

Lemma valid_4 (q d2 d3 d4 : N) (r : list N) : q <= 4 -> d2 < 64 -> d3 < 64 -> d4 < 64 ->
  (q = 0 -> 16 <= d2) -> (q = 4 -> d2 < 16) ->
  run_utf8_validation ([q + 240; d2 + 128; d3 + 128; d4 + 128] ++ r) = run_utf8_validation r.
Proof.
  intros Hq H2 H3 H4 H0 H4'. simpl app. cbn [run_utf8_validation].
  replace (q + 240 <? 128) with false by (symmetry; apply N.ltb_ge; lia).
  replace (utf8_char_width (q + 240)) with 4%nat.
  - replace (second_ok4 (q + 240) (d2 + 128)) with true.
    + rewrite !cont_not_ge by assumption. reflexivity.
    + symmetry. unfold second_ok4, in_range.
      assert (q = 0 \/ (1 <= q <= 3) \/ q = 4) as [->|[Hm| ->]] by lia; decide_cmp.
  - unfold utf8_char_width.
    replace (q + 240 <? 0x80) with false by (symmetry; apply N.ltb_ge; lia).
    replace (q + 240 <? 0xC2) with false by (symmetry; apply N.ltb_ge; lia).
    replace (q + 240 <? 0xE0) with false by (symmetry; apply N.ltb_ge; lia).
    replace (q + 240 <? 0xF0) with false by (symmetry; apply N.ltb_ge; lia).
    replace (q + 240 <? 0xF5) with true by (symmetry; apply N.ltb_lt; lia). reflexivity.
Qed.

Lemma is_scalar_iff (x : N) :
  is_scalar x = true <-> x < 0xD800 \/ 0xDFFF < x <= 0x10FFFF.
Proof.
  unfold is_scalar. rewrite orb_true_iff, andb_true_iff, N.ltb_lt, N.ltb_lt, N.leb_le.
  reflexivity.
Qed.

(** One scalar value: its encoding passes validation and decodes back. *)
Lemma enc_char (x : N) (r : list N) : is_scalar x = true ->
  run_utf8_validation (encode_utf8_raw x ++ r) = run_utf8_validation r
  /\ next_code_point (encode_utf8_raw x ++ r) = Some (x, r).
Proof.
  intros Hs. apply is_scalar_iff in Hs.
  destruct (N.lt_ge_cases x 0x80) as [H1|H1];
    [|destruct (N.lt_ge_cases x 0x800) as [H2|H2];
      [|destruct (N.lt_ge_cases x 0x10000) as [H3|H3]]].
  - rewrite encode_1 by exact H1. simpl app. split.
    + cbn [run_utf8_validation].
      replace (x <? 128) with true by (symmetry; apply N.ltb_lt; lia). reflexivity.
    + apply next_1. lia.
  - rewrite encode_2 by lia. split.
    + apply valid_2; ndm.
    + rewrite next_2 by ndm. do 2 f_equal. ndm.
  - rewrite encode_3 by lia. split.
    + apply valid_3; intros; ndm.
    + rewrite next_3 by ndm. do 2 f_equal. ndm.
  - rewrite encode_4 by lia. split.
    + apply valid_4; intros; ndm.
    + rewrite next_4 by ndm. do 2 f_equal. ndm.
Qed.

Lemma encode_nonempty (x : N) : exists b l, encode_utf8_raw x = b :: l.
Proof.
  unfold encode_utf8_raw. destruct (len_utf8 x) as [|[|[|[|]]]]; eauto.
Qed.

Lemma chars_go_enough (k : key) (f : nat) :
  forallb is_scalar k = true -> (length (as_bytes k) <= f)%nat ->
  chars_go f (as_bytes k) = k.
Proof.
  revert f. induction k as [|x k IH]; intros f Hs Hf.
  - destruct f; reflexivity.
  - simpl in Hs. apply andb_prop in Hs as [Hx Hk].
    change (as_bytes (x :: k)) with (encode_utf8_raw x ++ as_bytes k) in *.
    destruct (encode_nonempty x) as [b [l He]].
    rewrite length_app, He in Hf. simpl in Hf.
    destruct f as [|f]; [lia|]. simpl chars_go.
    rewrite (proj2 (enc_char x (as_bytes k) Hx)). f_equal. apply IH; [exact Hk|].
    unfold as_bytes in *. lia.
Qed.

Lemma validate_as_bytes (k : key) :
  forallb is_scalar k = true -> run_utf8_validation (as_bytes k) = true.
Proof.
  induction k as [|x k IH]; intros Hs; [reflexivity|].
  simpl in Hs. apply andb_prop in Hs as [Hx Hk].
  change (as_bytes (x :: k)) with (encode_utf8_raw x ++ as_bytes k).
  rewrite (proj1 (enc_char x (as_bytes k) Hx)).
  apply IH, Hk.
Qed.


Ltac cmp_steps :=
  repeat match goal with
  | |- context [N.compare ?a ?b] => destruct (N.compare_spec a b); cbn iota
  end.

(** Encodings of scalar values compare as the values do. *)
Lemma enc_lt (x y : N) (r s : list N) :
  is_scalar x = true -> is_scalar y = true -> x < y ->
  key_compare (encode_utf8_raw x ++ r) (encode_utf8_raw y ++ s) = Lt.
Proof.
  intros Hx Hy Hxy. apply is_scalar_iff in Hx, Hy.
  assert (x < 0x80 \/ 0x80 <= x < 0x800 \/ 0x800 <= x < 0x10000 \/ 0x10000 <= x <= 0x10FFFF)
    as [Ex|[Ex|[Ex|Ex]]] by lia;
  [rewrite (encode_1 x Ex)|rewrite (encode_2 x Ex)|rewrite (encode_3 x Ex)|rewrite (encode_4 x Ex)];
  (assert (y < 0x80 \/ 0x80 <= y < 0x800 \/ 0x800 <= y < 0x10000 \/ 0x10000 <= y <= 0x10FFFF)
    as [Ey|[Ey|[Ey|Ey]]] by lia;
  [rewrite (encode_1 y Ey)|rewrite (encode_2 y Ey)|rewrite (encode_3 y Ey)|rewrite (encode_4 y Ey)]);
  simpl app; cbn [key_compare]; cmp_steps; try reflexivity; exfalso; ndm.
Qed.

Lemma as_bytes_cons (x : N) (k : key) : as_bytes (x :: k) = encode_utf8_raw x ++ as_bytes k.
Proof. reflexivity. Qed.

Lemma as_bytes_compare (a b : key) :
  forallb is_scalar a = true -> forallb is_scalar b = true ->
  key_compare (as_bytes a) (as_bytes b) = key_compare a b.
Proof.
  revert b. induction a as [|x a IH]; intros [|y b] Ha Hb; [reflexivity| | |].
  - rewrite as_bytes_cons. destruct (encode_nonempty y) as [c [l ->]]. reflexivity.
  - rewrite as_bytes_cons. destruct (encode_nonempty x) as [c [l ->]]. reflexivity.
  - simpl in Ha, Hb. apply andb_prop in Ha as [Hx Ha]. apply andb_prop in Hb as [Hy Hb].
    rewrite !as_bytes_cons. cbn [key_compare].
    destruct (N.compare_spec x y) as [->|Hl|Hg].
    + rewrite CommonFacts.key_compare_app. apply IH; assumption.
    + apply enc_lt; assumption.
    + rewrite key_compare_antisym, enc_lt by assumption. reflexivity.
Qed.

End Utf8Facts.

(** ** Keys as LevelDB sees them *)

(** [StringKey::from_u8] inverts [StringKey::as_slice]: the bytes a key is
    stored under validate as UTF-8 (no panic of [unwrap]) and decode to the
    key, for every key made of Unicode scalar values, as a Rust [String]
    is. *)
Theorem string_key_round_trip :
  forall k : key, forallb Utf8.is_scalar k = true ->
    StringKey.from_u8 (StringKey.as_slice k) = Some k.
Proof.
  intros k Hs. unfold StringKey.from_u8, StringKey.as_slice, Utf8.from_utf8.
  rewrite (Utf8Facts.validate_as_bytes k Hs). f_equal.
  apply Utf8Facts.chars_go_enough; [exact Hs|lia].
Qed.

Lemma string_key_round_trip_witness :
  StringKey.from_u8 (StringKey.as_slice (str "a" ++ [233%N; 8364%N; char_MAX]))
  = Some (str "a" ++ [233%N; 8364%N; char_MAX]).
Proof. apply string_key_round_trip. vm_compute. reflexivity. Defined.

(** The bytewise order in which LevelDB keeps the bytes of
    [StringKey::as_slice] is the order of the keys' characters: for keys of
    Unicode scalar values, comparing the UTF-8 bytes lexicographically gives
    the same result as comparing the code points. *)
Theorem string_key_order :
  forall a b : key, forallb Utf8.is_scalar a = true -> forallb Utf8.is_scalar b = true ->
    key_compare (StringKey.as_slice a) (StringKey.as_slice b) = key_compare a b.
Proof. intros a b Ha Hb. apply Utf8Facts.as_bytes_compare; assumption. Qed.

Lemma string_key_order_witness :
  key_compare (StringKey.as_slice [127%N]) (StringKey.as_slice [char_MAX])
  = key_compare [127%N] [char_MAX].
Proof. apply string_key_order; vm_compute; reflexivity. Defined.
